(** * redis_info.py: the collectd Redis plugin, embedded and verified

    The plugin connects to a Redis server, sends [info], parses the reply
    into a dictionary and dispatches a fixed set of readings to collectd.

    The embedding follows the Python 2 source function by function:
    - [str] values are [string]s, Python integers are [Z];
    - a [dict] is a [gmap]; [for key in d] walks [map_to_list d], whose
      order is fixed but unspecified, as CPython 2's hash order is;
    - the dynamically typed values that end up in [info] form the tagged
      union [pyval];
    - exceptions and calls into collectd or the socket are effects of the
      monad [M]: a computation extends a trace of events and either returns
      or raises.  Events emitted before a raise stay in the trace. *)

From stdpp Require Import gmap strings list fin_maps.
From Stdlib Require Import ZArith Ascii String.

(** ** Python string primitives *)

Definition CR : ascii := "013"%char.
Definition LF : ascii := "010"%char.
Definition CRLF : string := String CR (String LF "").

(** [c in s] for a one-character [c]. *)
Fixpoint contains_char (c : ascii) (s : string) : bool :=
  match s with
  | EmptyString => false
  | String a s' => if decide (a = c) then true else contains_char c s'
  end.

(** [needle in hay]: substring test. *)
Fixpoint contains (needle hay : string) : bool :=
  if String.prefix needle hay then true
  else match hay with
       | EmptyString => false
       | String _ hay' => contains needle hay'
       end.

(** [s.startswith(p)]. *)
Definition startswith (p s : string) : bool := String.prefix p s.

(** [s.split(sep)] for a one-character separator: never empty, one more
    piece than there are separators. *)
Fixpoint split (sep : ascii) (s : string) : list string :=
  match s with
  | EmptyString => [EmptyString]
  | String a s' =>
      if decide (a = sep) then EmptyString :: split sep s'
      else match split sep s' with
           | piece :: pieces => String a piece :: pieces
           | [] => [String a EmptyString]
           end
  end.

(** The position of the last [sep] of [s], as the text before and after it. *)
Fixpoint rsplit_last (sep : ascii) (s : string) : option (string * string) :=
  match s with
  | EmptyString => None
  | String a s' =>
      match rsplit_last sep s' with
      | Some (h, t) => Some (String a h, t)
      | None => if decide (a = sep) then Some (EmptyString, s') else None
      end
  end.

(** [s.rpartition(sep)]: (head, sep, tail) around the last [sep]; when [sep]
    does not occur, two empty strings followed by [s] itself. *)
Definition rpartition (sep : ascii) (s : string) : string * string * string :=
  match rsplit_last sep s with
  | Some (h, t) => (h, String sep EmptyString, t)
  | None => (EmptyString, EmptyString, s)
  end.

Fixpoint lstrip (s : string) : string :=
  match s with
  | String a s' => if Ascii.is_space a then lstrip s' else s
  | EmptyString => EmptyString
  end.

Fixpoint rstrip (s : string) : string :=
  match s with
  | EmptyString => EmptyString
  | String a s' =>
      match rstrip s' with
      | EmptyString => if Ascii.is_space a then EmptyString else String a EmptyString
      | r => String a r
      end
  end.

(** [s.strip()]: whitespace is space, tab, LF, VT, FF and CR. *)
Definition strip (s : string) : string := lstrip (rstrip s).

Definition is_digit (c : ascii) : bool :=
  match Ascii.is_nat c with Some _ => true | None => false end.

Fixpoint digits_val (acc : Z) (s : string) : option Z :=
  match s with
  | EmptyString => Some acc
  | String c s' =>
      match Ascii.is_nat c with
      | Some d => digits_val (10 * acc + Z.of_nat d) s'
      | None => None
      end
  end.

Definition unsigned_val (s : string) : option Z :=
  match s with
  | EmptyString => None
  | _ => digits_val 0 s
  end.

(** [int(s)] on a [str]: surrounding whitespace is ignored, then an optional
    sign and at least one decimal digit; [None] stands for [ValueError]. *)
Definition int_of_str (s : string) : option Z :=
  match strip s with
  | String "-" ds => Z.opp <$> unsigned_val ds
  | String "+" ds => unsigned_val ds
  | ds => unsigned_val ds
  end.

(** [s[1:-1]]. *)
Fixpoint drop_last (s : string) : string :=
  match s with
  | EmptyString => EmptyString
  | String a EmptyString => EmptyString
  | String a s' => String a (drop_last s')
  end.

Definition slice_1_m1 (s : string) : string :=
  match s with
  | EmptyString => EmptyString
  | String _ s' => drop_last s'
  end.

(** [re.compile("slave\d+").match(key)]: the literal, then one digit or
    more, anchored at the start of [key] only. *)
Fixpoint leading_digits (s : string) : nat :=
  match s with
  | String c s' => if is_digit c then S (leading_digits s') else 0
  | EmptyString => 0
  end.

Fixpoint after_prefix (p s : string) : option string :=
  match p, s with
  | EmptyString, _ => Some s
  | String a p', String b s' => if decide (a = b) then after_prefix p' s' else None
  | String _ _, EmptyString => None
  end.

Definition regex_match (key : string) : bool :=
  match after_prefix "slave" key with
  | Some rest => bool_decide (1 ≤ leading_digits rest)
  | None => false
  end.

(** ** Values *)

(** What [info] and its nested dictionaries hold: [None], an [int], a [str]
    or a [dict] keyed by [str]. *)
#[warnings="-register-all"]
Inductive pyval : Type :=
| PNone
| PInt (z : Z)
| PStr (s : string)
| PDict (d : gmap string pyval).

Inductive exn : Type :=
| ValueError
| KeyError
| TypeError
| AttributeError
| Unsupported.

Inductive outcome (A : Type) : Type :=
| Return (a : A)
| Raise (e : exn).
Arguments Return {A} a.
Arguments Raise {A} e.

(** Operations that only compute or raise live in [outcome]. *)
Global Instance outcome_ret : MRet outcome := λ A a, Return a.
Global Instance outcome_bind : MBind outcome := λ A B k c,
  match c with
  | Return a => k a
  | Raise e => Raise e
  end.

(** A message [fmt % args], kept unformatted. *)
Inductive text : Type := Fmt (fmt : string) (args : list pyval).

(** [collectd.Values(plugin=...)] with its [type], [type_instance] and
    [values] set. *)
Record Values : Type := mkValues {
  plugin : string;
  type : string;
  type_instance : string;
  values : list Z
}.

Inductive event : Type :=
| collectd_info (m : text)
| collectd_warning (m : text)
| collectd_error (m : text)
| dispatch (v : Values)
| sock_connect (host : string) (port : Z)
| sock_sendall (data : string)
| sock_close.

(** ** The effect monad *)

Definition M (A : Type) : Type := list event → outcome A * list event.

Definition ret {A} (a : A) : M A := λ t, (Return a, t).
Definition raise {A} (e : exn) : M A := λ t, (Raise e, t).
Definition bind {A B} (c : M A) (k : A → M B) : M B :=
  λ t, match c t with
       | (Return a, t') => k a t'
       | (Raise e, t') => (Raise e, t')
       end.
Definition emit (e : event) : M unit := λ t, (Return tt, t ++ [e]).
Definition lift {A} (o : outcome A) : M A := λ t, (o, t).

Notation "'let*' x := c 'in' k" := (bind c (λ x, k))
  (at level 10, x pattern, c at level 100, k at level 200).
Notation "c ;; k" := (bind c (λ _, k))
  (at level 100, k at level 200, right associativity).

(** [for x in xs: body(x)]. *)
Fixpoint for_each {A} (xs : list A) (body : A → M unit) : M unit :=
  match xs with
  | [] => ret tt
  | x :: xs' => body x ;; for_each xs' body
  end.

(** The readings a trace carries, in order. *)
Definition dispatched (t : list event) : list Values :=
  omap (λ e, match e with dispatch v => Some v | _ => None end) t.

Definition is_close (e : event) : bool :=
  match e with sock_close => true | _ => false end.

(** Whether the socket has been closed by the end of the trace. *)
Definition closed (t : list event) : bool := existsb is_close t.

(** ** Python operations on values *)

(** [o[k]] for a [str] key [k]. *)
Definition getitem (o : pyval) (k : string) : outcome pyval :=
  match o with
  | PDict d => match d !! k with
               | Some v => Return v
               | None => Raise KeyError
               end
  | PStr _ | PInt _ | PNone => Raise TypeError
  end.

(** [k in o]: key membership on a [dict], substring test on a [str]. *)
Definition py_in (k : string) (o : pyval) : outcome bool :=
  match o with
  | PDict d => Return (bool_decide (is_Some (d !! k)))
  | PStr s => Return (contains k s)
  | PInt _ | PNone => Raise TypeError
  end.

(** [int(o)]. *)
Definition py_int (o : pyval) : outcome Z :=
  match o with
  | PInt z => Return z
  | PStr s => match int_of_str s with
              | Some z => Return z
              | None => Raise ValueError
              end
  | PNone | PDict _ => Raise TypeError
  end.

(** [o.strip()]: only a [str] has the method. *)
Definition py_strip (o : pyval) : outcome string :=
  match o with
  | PStr s => Return (strip s)
  | PNone | PInt _ | PDict _ => Raise AttributeError
  end.

(** [d.get(k, default)]. *)
Definition py_get (d : gmap string pyval) (k : string) (dflt : pyval) : pyval :=
  match d !! k with
  | Some v => v
  | None => dflt
  end.

(** [type(o) == dict]. *)
Definition is_dict (o : pyval) : bool :=
  match o with PDict _ => true | _ => false end.

(** [max(vs)] on a non-empty list of integers.  Python 2 also orders values
    of mixed types; outside integers the model stops with [Unsupported]. *)
Fixpoint ints_of (vs : list pyval) : option (list Z) :=
  match vs with
  | [] => Some []
  | PInt z :: vs' => cons z <$> ints_of vs'
  | _ :: _ => None
  end.

Definition py_max (vs : list pyval) : outcome pyval :=
  match ints_of vs with
  | Some (z :: zs) => Return (PInt (foldl Z.max z zs))
  | Some [] => Raise ValueError
  | None => Raise Unsupported
  end.

(** [for x in xs: acc = body(acc, x)]. *)
Fixpoint fold_each {A S} (body : S → A → M S) (xs : list A) (acc : S) : M S :=
  match xs with
  | [] => ret acc
  | x :: xs' => let* acc' := body acc x in fold_each body xs' acc'
  end.

(** [map(f, xs)], eager as in Python 2. *)
Fixpoint map_each {A B} (f : A → M B) (xs : list A) : M (list B) :=
  match xs with
  | [] => ret []
  | x :: xs' => let* y := f x in let* ys := map_each f xs' in ret (y :: ys)
  end.

(** ** The file object of the connection *)

(** What the server does: whether it accepts the connection, and the bytes
    it writes on it. *)
Record peer : Type := mkPeer {
  accepts : bool;
  sends : string
}.

(** [fp.readline()]: up to the first LF, included; the rest of the stream. *)
Fixpoint readline (fp : string) : string * string :=
  match fp with
  | EmptyString => (EmptyString, EmptyString)
  | String a fp' =>
      if decide (a = LF) then (String a EmptyString, fp')
      else let '(l, r) := readline fp' in (String a l, r)
  end.

Fixpoint take_str (n : nat) (s : string) : string :=
  match n, s with
  | S n', String a s' => String a (take_str n' s')
  | _, _ => EmptyString
  end.

(** [fp.read(n)]: [n] bytes, or what is left; everything for a negative [n]. *)
Definition read (fp : string) (n : Z) : string :=
  if decide (n < 0)%Z then fp else take_str (Z.to_nat n) fp.

(** ** The plugin *)

(** The module's globals, as [configure_callback] leaves them. *)
Record config : Type := mkConfig {
  REDIS_HOST : string;
  REDIS_PORT : Z;
  REDIS_PASS : option string;
  VERBOSE_LOGGING : bool
}.

Definition default_config : config :=
  {| REDIS_HOST := "localhost"; REDIS_PORT := 6379;
     REDIS_PASS := None; VERBOSE_LOGGING := false |}.

Section Plugin.
Context (cfg : config).

Definition log_verbose (msg : text) : M unit :=
  if negb (VERBOSE_LOGGING cfg) then ret tt
  else emit (collectd_info msg).

(** *** parse_info *)

(** Lines 91-96: a value with a comma becomes a dictionary of its pieces. *)
Definition sub_entry (val : gmap string pyval) (sub_val : string)
  : gmap string pyval :=
  let '(k, _, v) := rpartition "=" sub_val in <[k := PStr v]> val.

Definition parse_val (val : string) : pyval :=
  if contains_char "," val then PDict (foldl sub_entry ∅ (split "," val))
  else PStr val.

(** Lines 81-98: the body of the loop over the lines. *)
Definition parse_line (info : gmap string pyval) (line : string)
  : M (gmap string pyval) :=
  if negb (contains_char ":" line) then
    log_verbose (Fmt "redis_info plugin: Bad format for info line: %s" [PStr line]);;
    ret info
  else
    match split ":" line with
    | [key; val] => ret (<[key := parse_val val]> info)
    | _ => raise ValueError
    end.

(** Line 100.  When the value copied is a dictionary, both keys name one
    object in Python; the only write into a nested dictionary is that of
    line 106, under keys matching [slave\d+], which neither of the two
    keys does, so the sharing cannot be observed. *)
Definition alias_changes (info : gmap string pyval) : gmap string pyval :=
  <["changes_since_last_save" :=
      py_get info "changes_since_last_save"
        (py_get info "rdb_changes_since_last_save" PNone)]> info.

(** Line 106, right-hand side:
    [int(info['master_repl_offset']) - int(info[key]['offset'])]. *)
Definition delay (info : gmap string pyval) (key : string) : outcome Z :=
  master ← getitem (PDict info) "master_repl_offset";
  a ← py_int master;
  entry ← getitem (PDict info) key;
  offset ← getitem entry "offset";
  b ← py_int offset;
  mret (a - b)%Z.

(** Lines 105-106: the body of the loop over the keys; the assignment
    stores into the dictionary [info[key]]. *)
Definition add_delay (info : gmap string pyval) (key : string)
  : M (gmap string pyval) :=
  if regex_match key then
    let* x := lift (delay info key) in
    let* entry := lift (getitem (PDict info) key) in
    match entry with
    | PDict d => ret (<[key := PDict (<["delay" := PInt x]> d)]> info)
    | PNone | PInt _ | PStr _ => raise TypeError
    end
  else ret info.

Definition derive_delays (info : gmap string pyval) : M (gmap string pyval) :=
  fold_each add_delay (map_to_list info).*1 info.

Definition parse_info (info_lines : list string) : M (gmap string pyval) :=
  let* info := fold_each parse_line info_lines ∅ in
  derive_delays (alias_changes info).

(** *** fetch_info *)

Definition truthy (s : option string) : bool :=
  match s with
  | None | Some EmptyString => false
  | Some _ => true
  end.

Definition fetch_info (p : peer) : M (option (gmap string pyval)) :=
  if negb (accepts p) then
    emit (collectd_error
            (Fmt "redis_info plugin: Error connecting to %s:%d - %r"
                 [PStr (REDIS_HOST cfg); PInt (REDIS_PORT cfg)]));;
    ret None
  else
    emit (sock_connect (REDIS_HOST cfg) (REDIS_PORT cfg));;
    log_verbose (Fmt "Connected to Redis at %s:%s"
                     [PStr (REDIS_HOST cfg); PInt (REDIS_PORT cfg)]);;
    let fp := sends p in
    let* auth :=
      (if truthy (REDIS_PASS cfg) then
         emit (sock_sendall ("auth " +:+ default "" (REDIS_PASS cfg) +:+ CRLF));;
         let '(response, fp) := readline fp in
         if startswith "+OK" response then
           log_verbose (Fmt "redis_info plugin: Authenticated" []);;
           ret (Some fp)
         else
           emit (collectd_error (Fmt "redis_info plugin: Failed to authenticate" []));;
           ret None
       else ret (Some fp)) in
    match auth with
    | None => ret None
    | Some fp =>
        log_verbose (Fmt "Sending info command" []);;
        emit (sock_sendall ("info" +:+ CRLF));;
        let '(status_line, fp) := readline fp in
        let* content_length := lift (py_int (PStr (slice_1_m1 status_line))) in
        let data := read fp content_length in
        log_verbose (Fmt "Received data: %s" [PStr data]);;
        emit sock_close;;
        let* info := parse_info (split LF data) in
        ret (Some info)
    end.

(** *** dispatch_value *)

(** [if not type_instance: type_instance = key]. *)
Definition or_key (type_instance : option string) (key : string) : string :=
  if truthy type_instance then default key type_instance else key.

(** [if variants:] holds for a table with at least one entry. *)
Definition given (variants : option (gmap string Z)) : option (gmap string Z) :=
  match variants with
  | Some table => if decide (size table = 0%nat) then None else Some table
  | None => None
  end.

Definition dispatch_value (info : pyval) (key type : string)
    (type_instance : option string) (variants : option (gmap string Z))
  : M unit :=
  let* found := lift (py_in key info) in
  if negb found then
    emit (collectd_warning (Fmt "redis_info plugin: Info key not found: %s" [PStr key]))
  else
    let type_instance := or_key type_instance key in
    let* value :=
      (match given variants with
       | Some table =>
           let* v := lift (getitem info key) in
           let* s := lift (py_strip v) in
           ret (table !! s)
       | None =>
           let* v := lift (getitem info key) in
           let* n := lift (py_int v) in
           ret (Some n)
       end) in
    match value with
    | None => ret tt
    | Some value =>
        log_verbose (Fmt "Sending value: %s=%s" [PStr type_instance; PInt value]);;
        emit (dispatch {| plugin := "redis_info"; type := type;
                          type_instance := type_instance; values := [value] |})
    end.

(** *** read_callback *)

Definition role_variants : gmap string Z := {[ "slave" := 0%Z; "master" := 1%Z ]}.
Definition link_variants : gmap string Z := {[ "up" := 1%Z; "down" := 0%Z ]}.

(** Lines 164-177: the high-level values. *)
Definition send_high_level (info : gmap string pyval) : M unit :=
  dispatch_value (PDict info) "uptime_in_seconds" "uptime" (Some "uptime") None;;
  dispatch_value (PDict info) "connected_clients" "gauge" None None;;
  dispatch_value (PDict info) "connected_slaves" "gauge" None None;;
  dispatch_value (PDict info) "blocked_clients" "gauge" None None;;
  dispatch_value (PDict info) "used_memory" "bytes" None None;;
  dispatch_value (PDict info) "rdb_changes_since_last_save" "gauge" None None;;
  dispatch_value (PDict info) "total_connections_received" "counter"
                 (Some "connections_recieved") None;;
  dispatch_value (PDict info) "total_commands_processed" "counter"
                 (Some "commands_processed") None;;
  dispatch_value (PDict info) "keyspace_hits" "counter" (Some "hits") None;;
  dispatch_value (PDict info) "keyspace_misses" "counter" (Some "misses") None;;
  dispatch_value (PDict info) "role" "gauge" None (Some role_variants);;
  dispatch_value (PDict info) "rdb_bgsave_in_progress" "gauge"
                 (Some "background_save_in_progress") None.

(** Lines 179-182: the delays of the replica entries. *)
Definition slaves_delays (info : gmap string pyval) : M (list pyval) :=
  map_each (λ x : string * pyval, lift (getitem x.2 "delay"))
           (List.filter (λ x : string * pyval, regex_match x.1) (map_to_list info)).

(** Lines 179-185: [info] itself receives the new entry. *)
Definition send_slaves_max_delay (info : gmap string pyval)
  : M (gmap string pyval) :=
  let* delays := slaves_delays info in
  match delays with
  | [] => ret info
  | _ :: _ =>
      let* m := lift (py_max delays) in
      let info := <["slaves_max_delay" := m]> info in
      dispatch_value (PDict info) "slaves_max_delay" "gauge" None None;;
      ret info
  end.

(** [if key in info: dispatch_value(info, key, 'gauge', variants=...)]. *)
Definition send_if_present (info : gmap string pyval) (key : string)
    (variants : option (gmap string Z)) : M unit :=
  if bool_decide (is_Some (info !! key))
  then dispatch_value (PDict info) key "gauge" None variants
  else ret tt.

(** Lines 188-192: the replication stats. *)
Definition send_replication (info : gmap string pyval) : M unit :=
  send_if_present info "master_repl_offset" None;;
  send_if_present info "master_last_io_seconds_ago" None;;
  send_if_present info "slave_repl_offset" None;;
  send_if_present info "master_link_status" (Some link_variants);;
  send_if_present info "master_sync_in_progress" None.

(** Lines 196-203: the four tests made on each key of [info]. *)
Definition send_repl (info : gmap string pyval) (key : string) : M unit :=
  if startswith "repl_" key
  then dispatch_value (PDict info) key "gauge" None None
  else ret tt.

Definition send_vm_stats (info : gmap string pyval) (key : string) : M unit :=
  if startswith "vm_stats_" key
  then dispatch_value (PDict info) key "gauge" None None
  else ret tt.

Definition send_db_keys (info : gmap string pyval) (key : string) : M unit :=
  if startswith "db" key
  then let* entry := lift (getitem (PDict info) key) in
       dispatch_value entry "keys" "gauge" (Some (key +:+ "-keys")) None
  else ret tt.

Definition send_slave_delay (info : gmap string pyval) (key : string) : M unit :=
  if startswith "slave" key
  then let* entry := lift (getitem (PDict info) key) in
       if is_dict entry
       then dispatch_value entry "delay" "gauge" (Some (key +:+ "-delay")) None
       else ret tt
  else ret tt.

Definition send_wildcards (info : gmap string pyval) : M unit :=
  for_each (map_to_list info).*1 (λ key,
    send_repl info key;;
    send_vm_stats info key;;
    send_db_keys info key;;
    send_slave_delay info key).

(** Lines 164-203: what [read_callback] does with a report. *)
Definition send_all (info : gmap string pyval) : M unit :=
  send_high_level info;;
  let* info := send_slaves_max_delay info in
  send_replication info;;
  send_wildcards info.

Definition read_callback (p : peer) : M unit :=
  log_verbose (Fmt "Read callback called" []);;
  let* info := fetch_info p in
  match info with
  | None => emit (collectd_error (Fmt "redis plugin: No info received" []))
  | Some info =>
      if decide (size info = 0%nat)
      then emit (collectd_error (Fmt "redis plugin: No info received" []))
      else send_all info
  end.
End Plugin.

(** The body of the loop of lines 195-203, by name: [send_wildcards] is the
    loop of [wildcard_tests] over the keys. *)
Definition wildcard_tests (cfg : config) (info : gmap string pyval) (key : string)
  : M unit :=
  send_repl cfg info key;;
  send_vm_stats cfg info key;;
  send_db_keys cfg info key;;
  send_slave_delay cfg info key.

(** Running a computation from an empty trace. *)
Definition run {A} (c : M A) : outcome A * list event := c [].



(** [sep.join(pieces)], the inverse of [split]. *)
Fixpoint join (sep : ascii) (pieces : list string) : string :=
  match pieces with
  | [] => EmptyString
  | [piece] => piece
  | piece :: pieces' => piece +:+ String sep (join sep pieces')
  end.

(** A gauge reading as [dispatch_value] builds it. *)
Definition reading (type name : string) (value : Z) : Values :=
  {| plugin := "redis_info"; type := type; type_instance := name; values := [value] |}.

(** ** Trimming, as the specification words it *)

(** The whitespace characters of a Python [str]: space, tab, LF, VT, FF
    and CR, by their codes. *)
Definition py_space (a : ascii) : bool :=
  existsb (Ascii.eqb a) [" "; "009"; "010"; "011"; "012"; "013"]%char.

(** A string of whitespace only. *)
Fixpoint blank (s : string) : bool :=
  match s with
  | EmptyString => true
  | String a s' => py_space a && blank s'
  end.

(** The last character of [String a s]. *)
Fixpoint last_char (a : ascii) (s : string) : ascii :=
  match s with
  | EmptyString => a
  | String b s' => last_char b s'
  end.

(** A string that neither begins nor ends with whitespace. *)
Definition trimmed (s : string) : bool :=
  match s with
  | EmptyString => true
  | String a s' => negb (py_space a) && negb (py_space (last_char a s'))
  end.

(** ** What a computation may emit *)

(** The payloads handed to [sendall], in order. *)
Definition sent (t : list event) : list string :=
  omap (λ e, match e with sock_sendall data => Some data | _ => None end) t.

(** [emits P c]: whatever [c] does, it only appends events, all in [P]. *)
Definition emits (P : event → Prop) {A} (c : M A) : Prop :=
  ∀ t r t', c t = (r, t') → ∃ ext, t' = t ++ ext ∧ Forall P ext.

(** [framed c]: what [c] returns and what it appends do not depend on the
    trace it starts from. *)
Definition framed {A} (c : M A) : Prop :=
  ∀ t, c t = ((c []).1, t ++ (c []).2).

(** Calls of [collectd.info], of any logging function, and events that
    are no reading or leave the socket alone. *)
Definition is_info (e : event) : Prop :=
  match e with collectd_info _ => True | _ => False end.

Definition is_log (e : event) : Prop :=
  match e with
  | collectd_info _ | collectd_warning _ | collectd_error _ => True
  | _ => False
  end.

Definition no_dispatch (e : event) : Prop :=
  match e with dispatch _ => False | _ => True end.

Definition no_socket (e : event) : Prop :=
  match e with
  | sock_connect _ _ | sock_sendall _ | sock_close => False
  | _ => True
  end.

(** ** Writing a report *)

(** The line [key:val] of a report, and the piece [k=v] of a value. *)
Definition render (kv : string * string) : string := kv.1 +:+ String ":" kv.2.

Definition render_sub (kv : string * string) : string := kv.1 +:+ String "=" kv.2.

(** ** Readings expected of a field *)

(** What a field read through [int] contributes: one reading when it is
    there and reads as an integer. *)
Definition int_reading (info : gmap string pyval) (key type name : string)
  : list Values :=
  match info !! key with
  | Some v => match py_int v with
              | Return n => [reading type name n]
              | Raise _ => []
              end
  | None => []
  end.

(** What a field read through a table contributes: one reading when it is
    a string whose stripped form the table knows. *)
Definition variant_reading (info : gmap string pyval) (key type name : string)
    (table : gmap string Z) : list Values :=
  match info !! key with
  | Some (PStr s) => match table !! strip s with
                     | Some code => [reading type name code]
                     | None => []
                     end
  | _ => []
  end.

(** ** configure_callback *)

(** A value of a configuration node, as collectd's Python binding hands it
    over: a [str], a [float] or a [bool].  A finite float is the number
    [m * 2^e]. *)
Inductive confval : Type :=
| CStr (s : string)
| CNum (m e : Z)
| CBool (b : bool).

(** A child of the configuration block: its key and its values.  collectd
    gives every option one value at least; [node_value] is [values[0]]. *)
Record node : Type := mkNode {
  node_key : string;
  node_value : confval;
  node_more : list confval
}.

(** [int(v)]: a float is truncated towards zero, [True] is 1. *)
Definition conf_int (v : confval) : outcome Z :=
  match v with
  | CStr s => match int_of_str s with
              | Some z => Return z
              | None => Raise ValueError
              end
  | CNum m e => Return (if decide (0 ≤ e)%Z then m * 2 ^ e else Z.quot m (2 ^ (- e)))%Z
  | CBool b => Return (if b then 1 else 0)%Z
  end.

(** [bool(v)]: the empty string, zero and [False] are false. *)
Definition conf_bool (v : confval) : bool :=
  match v with
  | CStr s => negb (bool_decide (s = EmptyString))
  | CNum m _ => negb (bool_decide (m = 0%Z))
  | CBool b => b
  end.

Definition with_host (cfg : config) (host : string) : config :=
  {| REDIS_HOST := host; REDIS_PORT := REDIS_PORT cfg;
     REDIS_PASS := REDIS_PASS cfg; VERBOSE_LOGGING := VERBOSE_LOGGING cfg |}.

Definition with_port (cfg : config) (port : Z) : config :=
  {| REDIS_HOST := REDIS_HOST cfg; REDIS_PORT := port;
     REDIS_PASS := REDIS_PASS cfg; VERBOSE_LOGGING := VERBOSE_LOGGING cfg |}.

Definition with_pass (cfg : config) (pass : string) : config :=
  {| REDIS_HOST := REDIS_HOST cfg; REDIS_PORT := REDIS_PORT cfg;
     REDIS_PASS := Some pass; VERBOSE_LOGGING := VERBOSE_LOGGING cfg |}.

Definition with_verbose (cfg : config) (verbose : bool) : config :=
  {| REDIS_HOST := REDIS_HOST cfg; REDIS_PORT := REDIS_PORT cfg;
     REDIS_PASS := REDIS_PASS cfg; VERBOSE_LOGGING := verbose |}.

(** Lines 115-125: one child.  The globals of the model are typed: a [Host]
    or [Password] that is no string, which Python would store as it is,
    ends the model with [Unsupported]. *)
Definition configure_node (cfg : config) (n : node) : M config :=
  if decide (node_key n = "Host") then
    match node_value n with
    | CStr host => ret (with_host cfg host)
    | CNum _ _ | CBool _ => raise Unsupported
    end
  else if decide (node_key n = "Port") then
    let* port := lift (conf_int (node_value n)) in
    ret (with_port cfg port)
  else if decide (node_key n = "Password") then
    match node_value n with
    | CStr pass => ret (with_pass cfg pass)
    | CNum _ _ | CBool _ => raise Unsupported
    end
  else if decide (node_key n = "Verbose") then
    ret (with_verbose cfg (conf_bool (node_value n)))
  else
    emit (collectd_warning
            (Fmt "redis_info plugin: Unknown config key: %s." [PStr (node_key n)]));;
    ret cfg.

(** Lines 114-125: the loop over the children.  The globals are assigned
    one child after the other, so those set before an exception stay set:
    the result carries the globals whatever the outcome. *)
Fixpoint configure_children (cfg : config) (children : list node) (t : list event)
  : (outcome unit * config) * list event :=
  match children with
  | [] => ((Return tt, cfg), t)
  | n :: rest =>
      match configure_node cfg n t with
      | (Return cfg', t') => configure_children cfg' rest t'
      | (Raise e, t') => ((Raise e, cfg), t')
      end
  end.

Definition configure_callback (cfg : config) (conf : list node) (t : list event)
  : (outcome unit * config) * list event :=
  match configure_children cfg conf t with
  | ((Return _, cfg'), t') =>
      let '(r, t'') :=
        log_verbose cfg' (Fmt "Configured with host=%s, port=%s"
                              [PStr (REDIS_HOST cfg'); PInt (REDIS_PORT cfg')]) t' in
      ((r, cfg'), t'')
  | ((Raise e, cfg'), t') => ((Raise e, cfg'), t')
  end.

(** The keys [configure_callback] knows. *)
Definition known_key (key : string) : bool :=
  bool_decide (key = "Host") || bool_decide (key = "Port")
  || bool_decide (key = "Password") || bool_decide (key = "Verbose").

(** The warning of lines 124-125 and the line logged on line 126. *)
Definition unknown_key_warning (key : string) : event :=
  collectd_warning (Fmt "redis_info plugin: Unknown config key: %s." [PStr key]).

Definition configured_line (cfg : config) : event :=
  collectd_info (Fmt "Configured with host=%s, port=%s"
                     [PStr (REDIS_HOST cfg); PInt (REDIS_PORT cfg)]).

(** Whether some child of the block has the key. *)
Definition names (key : string) (conf : list node) : bool :=
  existsb (λ n, bool_decide (node_key n = key)) conf.

(** ** Reports used as examples *)

(** A replica that follows a master reached over IPv6. *)
Definition ipv6_report : list string := ["role:slave"; "master_host:::1"].

(** A report that carries neither change counter. *)
Definition role_only : gmap string pyval := {[ "role" := PStr "master" ]}.

(** A replica's role, with the carriage return that a CRLF report leaves
    on its last line. *)
Definition role_slave_cr : gmap string pyval :=
  {[ "role" := PStr ("" +:+ "slave" +:+ String CR "") ]}.

(** A report whose [connected_clients] is not a number. *)
Definition bad_clients : gmap string pyval :=
  {[ "uptime_in_seconds" := PStr "12";
     "connected_clients" := PStr "abc";
     "used_memory" := PStr "5" ]}.



(** A server that wants another password than the configured one. *)
Definition password_config : config :=
  {| REDIS_HOST := "localhost"; REDIS_PORT := 6379;
     REDIS_PASS := Some "secret"; VERBOSE_LOGGING := false |}.

Definition denying_peer : peer :=
  {| accepts := true; sends := "-ERR invalid password" +:+ CRLF |}.

(** A server that answers [info] with an error line instead of a length. *)
Definition erring_peer : peer :=
  {| accepts := true; sends := "-ERR unknown command" +:+ CRLF |}.

(** A server that answers [info] with a one-line report. *)
Definition answering_peer : peer :=
  {| accepts := true;
     sends := "$13" +:+ CRLF +:+ "role:master" +:+ CRLF |}.

(** Two replicas, the first with an offset that is no number. *)
Definition bad_offset_report : list string :=
  ["master_repl_offset:1000";
   "slave0:ip=10.0.0.1,offset=oops";
   "slave1:ip=10.0.0.2,offset=900"].

(** A replica entry in a report without [master_repl_offset]. *)
Definition no_master_report : list string := ["slave0:ip=10.0.0.1,offset=900"].

(** A master with two replicas, and the mapping [parse_info] makes of it. *)
Definition replica_report : list string :=
  ["master_repl_offset:1000";
   "slave0:ip=10.0.0.1,offset=900";
   "slave1:ip=10.0.0.2,offset=750"].

Definition replica_info : gmap string pyval :=
  {[ "master_repl_offset" := PStr "1000";
     "slave0" := PDict {[ "ip" := PStr "10.0.0.1"; "offset" := PStr "900";
                          "delay" := PInt 100 ]};
     "slave1" := PDict {[ "ip" := PStr "10.0.0.2"; "offset" := PStr "750";
                          "delay" := PInt 250 ]};
     "changes_since_last_save" := PNone ]}.

(** Fields of a server, as pairs. *)
Definition server_fields : list (string * string) :=
  [("redis_version", "2.8.4"); ("uptime_in_seconds", "120"); ("role", "master")].

Definition db_subfields : list (string * string) :=
  [("keys", "10"); ("expires", "0")].

(** A server that answers [info] with a report of 13 bytes and then goes
    on writing, and one that announces the nil reply [$-1]. *)
Definition chatty_peer : peer :=
  {| accepts := true;
     sends := "$13" +:+ CRLF +:+ "role:master" +:+ CRLF +:+ "+PONG" +:+ CRLF |}.

Definition nil_peer : peer :=
  {| accepts := true; sends := "$-1" +:+ CRLF +:+ "role:slave" +:+ CRLF |}.

(** A master as Redis 2.8 reports it, trimmed to the fields that are read. *)
Definition master_info : gmap string pyval :=
  {[ "uptime_in_seconds" := PStr "120";
     "connected_clients" := PStr "3";
     "used_memory" := PStr "1024";
     "role" := PStr "master";
     "master_repl_offset" := PStr "500";
     "changes_since_last_save" := PNone ]}.

(** A database line with one field only is kept as a string. *)
Definition single_field_db : gmap string pyval := {[ "db0" := PStr "keys=5" ]}.

(** The replication backlog of a master. *)
Definition backlog_info : gmap string pyval :=
  {[ "repl_backlog_size" := PStr "1048576" ]}.

(** * Properties *)

(** ** Strings *)

Section Strings.
Implicit Types (c a : ascii) (s h t : string).

Lemma contains_char_app c s1 s2 :
  contains_char c (s1 +:+ s2) = contains_char c s1 || contains_char c s2.
Proof.
  induction s1 as [|a s1 IH]; simpl; [done|].
  destruct (decide (a = c)); [done|apply IH].
Qed.

Lemma split_absent c s : contains_char c s = false → split c s = [s].
Proof.
  induction s as [|a s IH]; simpl; [done|].
  destruct (decide (a = c)); [done|]. intros H. by rewrite IH.
Qed.

Lemma split_once c s1 s2 :
  contains_char c s1 = false → contains_char c s2 = false →
  split c (s1 +:+ String c s2) = [s1; s2].
Proof.
  intros H1 H2. induction s1 as [|a s1 IH]; simpl in *.
  - rewrite decide_True by done. by rewrite split_absent.
  - destruct (decide (a = c)); [done|]. by rewrite IH.
Qed.

Lemma split_nonempty c s : split c s ≠ [].
Proof.
  destruct s as [|a s]; simpl; [done|].
  destruct (decide (a = c)); [done|]. by destruct (split c s).
Qed.

Lemma join_split c s : join c (split c s) = s.
Proof.
  induction s as [|a s IH]; simpl; [done|].
  destruct (decide (a = c)) as [->|].
  - pose proof (split_nonempty c s).
    destruct (split c s) as [|p ps] eqn:E; [done|].
    simpl in *. by rewrite IH.
  - destruct (split c s) as [|p ps] eqn:E; [by destruct (split_nonempty c s)|].
    destruct ps; simpl in *; by rewrite <- IH.
Qed.

Lemma split_pieces c s : Forall (λ p, contains_char c p = false) (split c s).
Proof.
  induction s as [|a s IH]; simpl; [by constructor|].
  destruct (decide (a = c)); [by constructor|].
  destruct (split c s) as [|p ps]; [constructor; [|done]; simpl; by rewrite decide_False|].
  inversion_clear IH. constructor; [|done]. simpl. by rewrite decide_False.
Qed.

Lemma rsplit_last_None c s :
  rsplit_last c s = None ↔ contains_char c s = false.
Proof.
  induction s as [|a s IH]; simpl; [done|].
  destruct (rsplit_last c s) as [[h t]|].
  - destruct (decide (a = c)); [done|]. split; [done|].
    intros H. apply IH in H. done.
  - destruct (decide (a = c)); [done|]. split; [intros _; by apply IH|done].
Qed.

Lemma rsplit_last_Some c s h t :
  rsplit_last c s = Some (h, t) →
  s = h +:+ String c t ∧ contains_char c t = false.
Proof.
  revert h. induction s as [|a s IH]; intros h; simpl; [done|].
  destruct (rsplit_last c s) as [[h' t']|] eqn:E.
  - intros [= <- <-]. destruct (IH h' eq_refl) as [-> ?]. done.
  - destruct (decide (a = c)) as [->|]; [|done].
    intros [= <- <-]. split; [done|]. by apply rsplit_last_None.
Qed.

(** [rpartition] cuts at the last separator, and hands the whole string
    back as the tail when there is none. *)
Lemma rpartition_present c s :
  contains_char c s = true →
  ∃ h t, rpartition c s = (h, String c EmptyString, t)
         ∧ s = h +:+ String c t ∧ contains_char c t = false.
Proof.
  intros H. unfold rpartition.
  destruct (rsplit_last c s) as [[h t]|] eqn:E.
  - exists h, t. split; [done|]. by apply rsplit_last_Some.
  - apply rsplit_last_None in E. congruence.
Qed.

Lemma rpartition_absent c s :
  contains_char c s = false → rpartition c s = (EmptyString, EmptyString, s).
Proof.
  intros H. unfold rpartition. apply rsplit_last_None in H. by rewrite H.
Qed.

Lemma lstrip_idemp s : lstrip (lstrip s) = lstrip s.
Proof.
  induction s as [|a s IH]; simpl; [done|].
  destruct (Ascii.is_space a) eqn:E; [done|]. simpl. by rewrite E.
Qed.

Lemma rstrip_idemp s : rstrip (rstrip s) = rstrip s.
Proof.
  induction s as [|a s IH]; simpl; [done|].
  destruct (rstrip s) as [|b r] eqn:E.
  - destruct (Ascii.is_space a) eqn:Ea; simpl; [done|]. by rewrite Ea.
  - simpl in *. rewrite IH. done.
Qed.

Lemma rstrip_lstrip_fixed s : rstrip s = s → rstrip (lstrip s) = lstrip s.
Proof.
  induction s as [|a s IH]; simpl; [done|].
  destruct (Ascii.is_space a) eqn:Ea.
  - destruct (rstrip s) as [|b r] eqn:E; [done|].
    intros [= Hr]. apply IH. done.
  - intros H. simpl. by rewrite Ea.
Qed.

Lemma strip_idemp s : strip (strip s) = strip s.
Proof.
  unfold strip.
  rewrite (rstrip_lstrip_fixed (rstrip s)) by apply rstrip_idemp.
  apply lstrip_idemp.
Qed.

(** [int] reads a string and its stripped form alike. *)
Lemma int_of_str_strip s : int_of_str (strip s) = int_of_str s.
Proof. unfold int_of_str. by rewrite strip_idemp. Qed.
End Strings.

(** ** The monad and [dispatch_value] *)

Section Dispatch.
Context (cfg : config).
Implicit Types (info d : gmap string pyval) (t : list event).

Lemma dispatched_app t1 t2 : dispatched (t1 ++ t2) = dispatched t1 ++ dispatched t2.
Proof. apply omap_app. Qed.

Lemma closed_app t1 t2 : closed (t1 ++ t2) = closed t1 || closed t2.
Proof. apply existsb_app. Qed.

Lemma log_verbose_run m t :
  ∃ t', log_verbose cfg m t = (Return tt, t') ∧ dispatched t' = dispatched t
        ∧ closed t' = closed t.
Proof.
  unfold log_verbose. destruct (VERBOSE_LOGGING cfg); simpl.
  - eexists; split; [reflexivity|].
    rewrite dispatched_app, closed_app; simpl.
    by rewrite app_nil_r, orb_false_r.
  - by eexists.
Qed.

(** A key that is absent: a warning, no reading, no exception. *)
Lemma dispatch_value_missing d key ty ti variants t :
  d !! key = None →
  dispatch_value cfg (PDict d) key ty ti variants t
  = (Return tt,
     t ++ [collectd_warning (Fmt "redis_info plugin: Info key not found: %s" [PStr key])]).
Proof.
  intros H. unfold dispatch_value, bind, lift; simpl.
  rewrite bool_decide_eq_false_2; [done|]. rewrite H. by intros [? ?].
Qed.

(** Without a variant table the value goes through [int]. *)
Lemma dispatch_value_int d key ty ti variants v n t :
  d !! key = Some v → given variants = None → py_int v = Return n →
  ∃ t', dispatch_value cfg (PDict d) key ty ti variants t = (Return tt, t')
        ∧ dispatched t' = dispatched t ++ [reading ty (or_key ti key) n].
Proof.
  intros Hk Hv Hn. unfold dispatch_value, bind, lift; simpl.
  rewrite bool_decide_eq_true_2 by (rewrite Hk; eauto). simpl.
  rewrite Hv, Hk, Hn. unfold ret; simpl.
  destruct (log_verbose_run (Fmt "Sending value: %s=%s" [PStr (or_key ti key); PInt n]) t)
    as (t' & -> & Hd & _).
  eexists; split; [reflexivity|]. by rewrite dispatched_app, Hd.
Qed.

Lemma dispatch_value_int_raise d key ty ti variants v e t :
  d !! key = Some v → given variants = None → py_int v = Raise e →
  dispatch_value cfg (PDict d) key ty ti variants t = (Raise e, t).
Proof.
  intros Hk Hv Hn. unfold dispatch_value, bind, lift; simpl.
  rewrite bool_decide_eq_true_2 by (rewrite Hk; eauto). simpl.
  by rewrite Hv, Hk, Hn.
Qed.

(** With a variant table the stripped value is looked up in it. *)
Lemma dispatch_value_variant d key ty ti variants table s t :
  d !! key = Some (PStr s) → given variants = Some table →
  ∃ t', dispatch_value cfg (PDict d) key ty ti variants t = (Return tt, t')
        ∧ dispatched t' = dispatched t ++
            match table !! strip s with
            | Some code => [reading ty (or_key ti key) code]
            | None => []
            end.
Proof.
  intros Hk Hv. unfold dispatch_value, bind, lift; simpl.
  rewrite bool_decide_eq_true_2 by (rewrite Hk; eauto). simpl.
  rewrite Hv, Hk. unfold ret; simpl.
  destruct (table !! strip s) as [code|].
  - destruct (log_verbose_run (Fmt "Sending value: %s=%s" [PStr (or_key ti key); PInt code]) t)
      as (t' & -> & Hd & _).
    eexists; split; [reflexivity|]. by rewrite dispatched_app, Hd.
  - eexists; split; [reflexivity|]. by rewrite app_nil_r.
Qed.

End Dispatch.

(** ** Parsing *)

Section Parsing.
Context (cfg : config).
Implicit Types (info d : gmap string pyval) (t : list event).

Lemma split_cons c s1 s2 :
  contains_char c s1 = false →
  split c (s1 +:+ String c s2) = s1 :: split c s2.
Proof.
  intros H1. induction s1 as [|a s1 IH]; simpl in *.
  - by rewrite decide_True.
  - destruct (decide (a = c)); [done|]. by rewrite IH.
Qed.

Lemma split_present c s :
  contains_char c s = true → ∃ p q r, split c s = p :: q :: r.
Proof.
  induction s as [|a s IH]; simpl; [done|].
  destruct (decide (a = c)).
  - intros _. pose proof (split_nonempty c s).
    destruct (split c s) as [|q r]; [done|]. eauto.
  - intros H. destruct (IH H) as (p & q & r & ->). eauto.
Qed.

(** A line with exactly one colon is stored under the text before it. *)
Lemma parse_line_one_colon info key val t :
  contains_char ":" key = false → contains_char ":" val = false →
  parse_line cfg info (key +:+ String ":" val) t
  = (Return (<[key := parse_val val]> info), t).
Proof.
  intros Hk Hv. unfold parse_line.
  rewrite contains_char_app, Hk. simpl.
  by rewrite split_once.
Qed.

(** A line with two colons or more cannot be unpacked into [key, val]. *)
Lemma parse_line_more_colons info key rest t :
  contains_char ":" key = false → contains_char ":" rest = true →
  parse_line cfg info (key +:+ String ":" rest) t = (Raise ValueError, t).
Proof.
  intros Hk Hr. unfold parse_line.
  rewrite contains_char_app, Hk. simpl.
  rewrite split_cons by done.
  by destruct (split_present _ _ Hr) as (p & q & r & ->).
Qed.

(** A line without a colon leaves [info] as it was. *)
Lemma parse_line_no_colon info line t :
  contains_char ":" line = false →
  ∃ t', parse_line cfg info line t = (Return info, t').
Proof.
  intros H. unfold parse_line. rewrite H. simpl. unfold bind.
  destruct (log_verbose_run cfg
    (Fmt "redis_info plugin: Bad format for info line: %s" [PStr line]) t)
    as (t' & -> & _). by exists t'.
Qed.
End Parsing.

(** C1. The loop of [parse_info] unpacks [line.split(':')] into exactly two
    names, so a line with a second colon raises [ValueError] instead of
    yielding the entry (text before the first colon, everything after it):
    the parse of [ipv6_report], whose second line is [master_host:::1],
    fails as a whole, and so does every line of that shape. *)
Theorem parse_info_second_colon_raises :
  run (parse_info default_config ipv6_report) = (Raise ValueError, [])
  ∧ ∀ cfg info key rest t,
      contains_char ":" key = false → contains_char ":" rest = true →
      parse_line cfg info (key +:+ String ":" rest) t = (Raise ValueError, t).
Proof.
  split; [by vm_compute|]. intros. by apply parse_line_more_colons.
Qed.

(** C3, as the claim states it, fails: a mapping with neither counter ends
    up holding the key, bound to [None]. *)
Lemma alias_neither_binds_None :
  role_only !! "changes_since_last_save" = None
  ∧ role_only !! "rdb_changes_since_last_save" = None
  ∧ alias_changes role_only !! "changes_since_last_save" = Some PNone.
Proof. by vm_compute. Qed.

(** C3, amended. After line 100 [changes_since_last_save] is always a key
    of the mapping: it keeps its own value when it had one, else it holds
    the value of [rdb_changes_since_last_save], else [None]; no other key
    changes. *)
Theorem alias_changes_spec (info : gmap string pyval) :
  (∀ v, info !! "changes_since_last_save" = None →
        info !! "rdb_changes_since_last_save" = Some v →
        alias_changes info !! "changes_since_last_save" = Some v)
  ∧ (info !! "changes_since_last_save" = None →
     info !! "rdb_changes_since_last_save" = None →
     alias_changes info !! "changes_since_last_save" = Some PNone)
  ∧ (∀ v, info !! "changes_since_last_save" = Some v →
          alias_changes info !! "changes_since_last_save" = Some v)
  ∧ (∀ k, k ≠ "changes_since_last_save" → alias_changes info !! k = info !! k).
Proof.
  unfold alias_changes, py_get. repeat split.
  - intros v H1 H2. by rewrite lookup_insert_eq, H1, H2.
  - intros H1 H2. by rewrite lookup_insert_eq, H1, H2.
  - intros v H1. by rewrite lookup_insert_eq, H1.
  - intros k Hk. by rewrite lookup_insert_ne.
Qed.

(** C4, as the claim states it, fails: a piece without [=] is not a key
    with an empty value; it is the value of the empty key. *)
Lemma piece_without_equals_is_value :
  ∃ d, parse_val "a,b=1" = PDict d
       ∧ d !! "a" = None ∧ d !! "" = Some (PStr "a") ∧ d !! "b" = Some (PStr "1").
Proof. eexists. split; [reflexivity|]. by vm_compute. Qed.

(** C4, amended. A value with a comma becomes the dictionary built from its
    comma-separated pieces, in order; a piece with [=] is cut at its last
    [=] into key and value, so [offset=5=x] gives key [offset=5] and value
    [x]; a piece without [=] is stored whole as the value of the empty key. *)
Theorem parse_val_submap :
  (∀ val, contains_char "," val = true →
     parse_val val = PDict (foldl sub_entry ∅ (split "," val))
     ∧ join "," (split "," val) = val
     ∧ Forall (λ piece, contains_char "," piece = false) (split "," val))
  ∧ (∀ d piece, contains_char "=" piece = true →
       ∃ k v, piece = k +:+ String "=" v ∧ contains_char "=" v = false
              ∧ sub_entry d piece = <[k := PStr v]> d)
  ∧ (∀ d piece, contains_char "=" piece = false →
       sub_entry d piece = <["" := PStr piece]> d)
  ∧ sub_entry ∅ "offset=5=x" = {[ "offset=5" := PStr "x" ]}.
Proof.
  repeat split.
  - unfold parse_val. by rewrite H.
  - apply join_split.
  - apply split_pieces.
  - intros d piece H. unfold sub_entry.
    destruct (rpartition_present _ _ H) as (h & tl & -> & Hs & Hn). eauto.
  - intros d piece H. unfold sub_entry. by rewrite rpartition_absent.
Qed.

(** ** Projection *)

Section Trimming.

Lemma app_assoc_str (s1 s2 s3 : string) : (s1 +:+ s2) +:+ s3 = s1 +:+ s2 +:+ s3.
Proof.
  induction s1 as [|a s1 IH]; [done|].
  change (String a ((s1 +:+ s2) +:+ s3) = String a (s1 +:+ s2 +:+ s3)).
  by rewrite IH.
Qed.

Lemma py_space_is_space a : Ascii.is_space a = py_space a.
Proof. by destruct a as [[] [] [] [] [] [] [] []]. Qed.

Lemma rstrip_blank s : blank s = true → rstrip s = "".
Proof.
  induction s as [|a s IH]; simpl; [done|].
  intros [Ha Hs]%andb_true_iff. rewrite IH by done.
  by rewrite py_space_is_space, Ha.
Qed.

Lemma rstrip_app_blank s post : blank post = true → rstrip (s +:+ post) = rstrip s.
Proof.
  intros Hp. induction s as [|a s IH]; simpl.
  - by apply rstrip_blank.
  - by rewrite IH.
Qed.

Lemma rstrip_last_char a s :
  py_space (last_char a s) = false → rstrip (String a s) = String a s.
Proof.
  revert a. induction s as [|b s IH]; intros a; cbn [last_char].
  - intros Ha. simpl. by rewrite py_space_is_space, Ha.
  - intros Hb. change (rstrip (String a (String b s)))
      with (match rstrip (String b s) with
            | EmptyString => if Ascii.is_space a then EmptyString else String a EmptyString
            | r => String a r
            end).
    by rewrite IH.
Qed.

Lemma rstrip_app_fixed pre a s :
  rstrip (String a s) = String a s → rstrip (pre +:+ String a s) = pre +:+ String a s.
Proof.
  intros H. induction pre as [|p pre IH]; [done|].
  change (rstrip (String p pre +:+ String a s))
    with (match rstrip (pre +:+ String a s) with
          | EmptyString => if Ascii.is_space p then EmptyString else String p EmptyString
          | r => String p r
          end).
  rewrite IH. by destruct pre.
Qed.

Lemma lstrip_app_blank pre s : blank pre = true → lstrip (pre +:+ s) = lstrip s.
Proof.
  induction pre as [|p pre IH]; [done|]. simpl.
  intros [Hp Hpre]%andb_true_iff. rewrite py_space_is_space, Hp. by apply IH.
Qed.

(** [strip] takes the whitespace off both ends and nothing else. *)
Lemma strip_trims pre core post :
  blank pre = true → blank post = true → trimmed core = true →
  strip (pre +:+ core +:+ post) = core.
Proof.
  intros Hpre Hpost Hcore. unfold strip.
  destruct core as [|a core].
  - simpl. rewrite rstrip_app_blank by done.
    by rewrite (rstrip_blank pre).
  - simpl in Hcore. apply andb_true_iff in Hcore as [Ha Hl].
    apply negb_true_iff in Ha, Hl.
    rewrite <- app_assoc_str.
    rewrite rstrip_app_blank by done.
    rewrite rstrip_app_fixed by by apply rstrip_last_char.
    rewrite lstrip_app_blank by done.
    simpl. by rewrite py_space_is_space, Ha.
Qed.

Lemma rstrip_split s : ∃ post, s = rstrip s +:+ post ∧ blank post = true.
Proof.
  induction s as [|a s (post & Hs & Hp)]; [by exists ""|].
  simpl. destruct (rstrip s) as [|b r] eqn:Hr.
  - change (s = post) in Hs. subst post. rewrite py_space_is_space.
    destruct (py_space a) eqn:Ha.
    + exists (String a s). simpl. by rewrite Ha.
    + by exists s.
  - exists post. split; [|done].
    change (String a s = String a (String b r +:+ post)). by rewrite <- Hs.
Qed.

Lemma lstrip_split s : ∃ pre, s = pre +:+ lstrip s ∧ blank pre = true.
Proof.
  induction s as [|a s (pre & Hs & Hp)]; [by exists ""|].
  simpl. rewrite py_space_is_space. destruct (py_space a) eqn:Ha.
  - exists (String a pre). split; [|by simpl; rewrite Ha].
    change (String a s = String a (pre +:+ lstrip s)). by rewrite <- Hs.
  - by exists "".
Qed.

Lemma rstrip_ends a r s : rstrip s = String a r → py_space (last_char a r) = false.
Proof.
  revert a r. induction s as [|b s IH]; intros a r; simpl; [done|].
  destruct (rstrip s) as [|c r'] eqn:Hr.
  - rewrite py_space_is_space. destruct (py_space b) eqn:Hb; [done|].
    by intros [= <- <-].
  - intros [= <- <-]. cbn [last_char]. by apply IH.
Qed.

Lemma lstrip_begins a b r l :
  lstrip (String a r) = String b l →
  py_space b = false ∧ last_char b l = last_char a r.
Proof.
  revert a. induction r as [|c r IH]; intros a; simpl;
    rewrite py_space_is_space; destruct (py_space a) eqn:Ha; try done.
  - by intros [= <- <-].
  - intros H. by apply IH in H.
  - by intros [= <- <-].
Qed.

(** Every string is whitespace, a trimmed core, whitespace; [strip] gives
    the core. *)
Lemma strip_splits s :
  ∃ pre post, s = pre +:+ strip s +:+ post
              ∧ blank pre = true ∧ blank post = true ∧ trimmed (strip s) = true.
Proof.
  unfold strip.
  destruct (rstrip_split s) as (post & Hs & Hpost).
  destruct (lstrip_split (rstrip s)) as (pre & Hr & Hpre).
  exists pre, post. repeat split; try done.
  - rewrite Hs at 1. rewrite Hr at 1. apply app_assoc_str.
  - destruct (rstrip s) as [|a r] eqn:Er; [done|].
    destruct (lstrip (String a r)) as [|b l] eqn:El; [done|].
    apply lstrip_begins in El as [Hb Hl]. apply rstrip_ends in Er.
    simpl. by rewrite Hb, Hl, Er.
Qed.
End Trimming.

(** C6. With a variant table, [dispatch_value] looks the field's string up
    with the whitespace at its two ends taken off: when the string is
    whitespace, a core that neither begins nor ends with whitespace, and
    whitespace again (every string is, in one way), a core that the table
    knows is dispatched with the code the table gives it, any other core
    dispatches nothing, and in both cases the call returns without
    raising. *)
Theorem variant_projection cfg (info : gmap string pyval) key ty ti
    (table : gmap string Z) pre core post t :
  info !! key = Some (PStr (pre +:+ core +:+ post)) → size table ≠ 0%nat →
  blank pre = true → blank post = true → trimmed core = true →
  ∃ t', dispatch_value cfg (PDict info) key ty ti (Some table) t = (Return tt, t')
        ∧ dispatched t' = dispatched t ++
            match table !! core with
            | Some code => [reading ty (or_key ti key) code]
            | None => []
            end.
Proof.
  intros Hk Hs Hpre Hpost Hcore.
  rewrite <- (strip_trims pre core post) by done.
  apply dispatch_value_variant; [done|].
  unfold given. by rewrite decide_False.
Qed.

(** The table of line 176 sends a slave as 0, also when the report left a
    carriage return on the role. *)
Lemma variant_projection_role_slave :
  ∃ t', dispatch_value default_config (PDict role_slave_cr) "role" "gauge" None
          (Some role_variants) [] = (Return tt, t')
        ∧ dispatched t' = dispatched [] ++ [reading "gauge" "role" 0].
Proof.
  apply (variant_projection default_config role_slave_cr "role" "gauge" None
           role_variants "" "slave" (String CR "") []).
  - reflexivity.
  - vm_compute. discriminate.
  - reflexivity.
  - reflexivity.
  - reflexivity.
Defined.

(** What lines 176 and 191 send for the roles and link states, and for a
    role the table does not know. *)
Lemma role_codes :
  role_variants !! strip "slave" = Some 0%Z
  ∧ role_variants !! strip "master" = Some 1%Z
  ∧ role_variants !! strip "unknown" = None
  ∧ link_variants !! strip "up" = Some 1%Z
  ∧ link_variants !! strip "down" = Some 0%Z.
Proof. by vm_compute. Qed.

Section Projection.
Context (cfg : config).
Implicit Types (info d : gmap string pyval) (t : list event).

(** Stripping a stored string beforehand changes nothing of what
    [dispatch_value] does with it. *)
Lemma dispatch_value_strip info key s ty ti variants t :
  dispatch_value cfg (PDict (<[key := PStr s]> info)) key ty ti variants t
  = dispatch_value cfg (PDict (<[key := PStr (strip s)]> info)) key ty ti variants t.
Proof.
  unfold dispatch_value, bind, lift; simpl.
  rewrite !lookup_insert_eq.
  rewrite !bool_decide_eq_true_2 by eauto. simpl.
  destruct (given variants); simpl.
  - by rewrite strip_idemp.
  - by rewrite int_of_str_strip.
Qed.

(** A raise ends the computation it occurs in. *)
Lemma bind_raise {A B} (c : M A) (k : A → M B) e t t' :
  c t = (Raise e, t') → bind c k t = (Raise e, t').
Proof. intros H. unfold bind. by rewrite H. Qed.
End Projection.

(** C10. A value is stored as the line has it, a trailing carriage return
    included, and is read as its stripped form would be: [dispatch_value]
    behaves alike on a string and on the string stripped, with or without
    a variant table. *)
Theorem carriage_return_kept_then_ignored cfg :
  (∀ info key val t,
     contains_char ":" key = false → contains_char ":" val = false →
     contains_char "," val = false →
     parse_line cfg info (key +:+ String ":" val) t
     = (Return (<[key := PStr val]> info), t))
  ∧ (∀ info key s ty ti variants t,
       dispatch_value cfg (PDict (<[key := PStr s]> info)) key ty ti variants t
       = dispatch_value cfg (PDict (<[key := PStr (strip s)]> info)) key ty ti variants t)
  ∧ split LF ("role:master" +:+ CRLF) = ["role:master" +:+ String CR ""; ""]
  ∧ parse_line cfg ∅ ("role:master" +:+ String CR "") []
    = (Return {[ "role" := PStr ("master" +:+ String CR "") ]}, [])
  ∧ strip ("master" +:+ String CR "") = "master"
  ∧ int_of_str ("120" +:+ String CR "") = Some 120%Z.
Proof.
  split; [|split; [|repeat split]].
  - intros info key val t Hk Hv Hc.
    rewrite parse_line_one_colon by done. unfold parse_val. by rewrite Hc.
  - intros. apply dispatch_value_strip.
Qed.

(** C5, as the claim states it, fails: [connected_clients] is not a number,
    and the projection raises there; [used_memory], which is one, is never
    dispatched. *)
Lemma non_integer_stops_projection :
  bad_clients !! "used_memory" = Some (PStr "5")
  ∧ run (send_all default_config bad_clients)
    = (Raise ValueError, [dispatch (reading "uptime" "uptime" 12)]).
Proof. by vm_compute. Qed.

Ltac run_dispatch :=
  match goal with
  | |- context [dispatch_value ?c ?i ?k ?ty ?ti ?v ?t] =>
      destruct (dispatch_value c i k ty ti v t) as [[[]|?] ?]
  end.

(** C5, amended. Without a variant table, a string that [int] cannot read
    makes [dispatch_value] raise [ValueError] at that metric, with nothing
    dispatched for it; nothing catches the exception, so whatever was to
    follow is not run: when the metric is one of the high-level values,
    [read_callback] ends in the exception with the trace the high-level
    part had reached, and dispatches nothing of the later parts. *)
Theorem non_integer_scalar_aborts cfg (info : gmap string pyval) key s t :
  In key ["uptime_in_seconds"; "connected_clients"; "connected_slaves";
          "blocked_clients"; "used_memory"; "rdb_changes_since_last_save";
          "total_connections_received"; "total_commands_processed";
          "keyspace_hits"; "keyspace_misses"; "rdb_bgsave_in_progress"] →
  info !! key = Some (PStr s) → int_of_str s = None →
  (∀ ty ti t0, dispatch_value cfg (PDict info) key ty ti None t0 = (Raise ValueError, t0))
  ∧ (∀ ty ti t0 B (k : M B),
       (dispatch_value cfg (PDict info) key ty ti None ;; k) t0 = (Raise ValueError, t0))
  ∧ ∃ e t', send_high_level cfg info t = (Raise e, t')
            ∧ send_all cfg info t = (Raise e, t').
Proof.
  intros Hin Hk Hs.
  assert (Hraise : ∀ ty ti t0,
    dispatch_value cfg (PDict info) key ty ti None t0 = (Raise ValueError, t0)).
  { intros. apply (dispatch_value_int_raise cfg info key ty ti None (PStr s)); [done..|].
    simpl. by rewrite Hs. }
  split; [done|]. split; [intros; by apply bind_raise|].
  simpl in Hin.
  repeat (destruct Hin as [<-|Hin]); [..|done];
    unfold send_all, send_high_level, bind;
    repeat first [rewrite Hraise | run_dispatch]; eauto.
Qed.

Lemma non_integer_scalar_aborts_witness :
  (∀ ty ti t0, dispatch_value default_config (PDict bad_clients) "connected_clients"
                 ty ti None t0 = (Raise ValueError, t0))
  ∧ (∀ ty ti t0 B (k : M B),
       (dispatch_value default_config (PDict bad_clients) "connected_clients" ty ti None ;; k) t0
       = (Raise ValueError, t0))
  ∧ ∃ e t', send_high_level default_config bad_clients [] = (Raise e, t')
            ∧ send_all default_config bad_clients [] = (Raise e, t').
Proof.
  apply (non_integer_scalar_aborts default_config bad_clients "connected_clients" "abc" []).
  - simpl. right. left. reflexivity.
  - reflexivity.
  - reflexivity.
Defined.

(** ** The replication delays *)

Section Delays.
Implicit Types (info d : gmap string pyval) (t : list event) (key k : string).

(** [delay] returns exactly when both offsets are there and are integers. *)
Lemma delay_Return info key x :
  delay info key = Return x ↔
  ∃ m a d o b,
    info !! "master_repl_offset" = Some m ∧ py_int m = Return a
    ∧ info !! key = Some (PDict d) ∧ d !! "offset" = Some o
    ∧ py_int o = Return b ∧ x = (a - b)%Z.
Proof.
  unfold delay, getitem, mbind, outcome_bind, mret, outcome_ret. split.
  - destruct (info !! "master_repl_offset") as [m|]; [|done].
    destruct (py_int m) as [a|] eqn:Ha; [|done].
    destruct (info !! key) as [[| | |d]|]; try done.
    destruct (d !! "offset") as [o|] eqn:Ho; [|done].
    destruct (py_int o) as [b|] eqn:Hb; [|done].
    intros [= <-]. by exists m, a, d, o, b.
  - intros (m & a & d & o & b & -> & -> & -> & -> & -> & ->). done.
Qed.

Lemma regex_match_not_master key :
  regex_match key = true → key ≠ "master_repl_offset".
Proof. by intros H ->. Qed.

(** Storing a delay changes no delay. *)
Lemma delay_insert info key d x k :
  regex_match key = true → info !! key = Some (PDict d) →
  delay (<[key := PDict (<["delay" := PInt x]> d)]> info) k = delay info k.
Proof.
  intros Hm Hk. unfold delay, getitem, mbind, outcome_bind.
  rewrite (lookup_insert_ne _ key "master_repl_offset")
    by (by apply regex_match_not_master).
  destruct (info !! "master_repl_offset") as [m|]; [|done].
  destruct (py_int m) as [a|]; [|done].
  destruct (decide (key = k)) as [->|Hne].
  - rewrite lookup_insert_eq, Hk. by rewrite lookup_insert_ne.
  - by rewrite lookup_insert_ne.
Qed.

Lemma add_delay_skip info key t :
  regex_match key = false → add_delay info key t = (Return info, t).
Proof. intros H. unfold add_delay. by rewrite H. Qed.

Lemma add_delay_Return info key x t :
  regex_match key = true → delay info key = Return x →
  ∃ d, info !! key = Some (PDict d)
       ∧ add_delay info key t
         = (Return (<[key := PDict (<["delay" := PInt x]> d)]> info), t).
Proof.
  intros Hm Hx. unfold add_delay, bind, lift. rewrite Hm, Hx. simpl.
  apply delay_Return in Hx as (m & a & d & o & b & _ & _ & Hk & _).
  exists d. by rewrite Hk.
Qed.

Lemma add_delay_Raise info key e t :
  regex_match key = true → delay info key = Raise e →
  add_delay info key t = (Raise e, t).
Proof. intros Hm He. unfold add_delay, bind, lift. by rewrite Hm, He. Qed.

(** The loop over the keys, when every replica entry is fit for it. *)
Lemma derive_loop_ok keys :
  NoDup keys → ∀ info t,
  (∀ k, k ∈ keys → regex_match k = true → ∃ x, delay info k = Return x) →
  ∃ info', fold_each add_delay keys info t = (Return info', t)
    ∧ (∀ k, delay info' k = delay info k)
    ∧ (∀ k, k ∉ keys ∨ regex_match k = false → info' !! k = info !! k)
    ∧ (∀ k, k ∈ keys → regex_match k = true →
         ∃ d x, info !! k = Some (PDict d) ∧ delay info k = Return x
                ∧ info' !! k = Some (PDict (<["delay" := PInt x]> d))).
Proof.
  induction 1 as [|key keys Hnotin Hnodup IH]; intros info t Hall; simpl.
  { exists info. split; [done|]. split; [done|]. split; [done|].
    intros k Hk. by apply elem_of_nil in Hk. }
  unfold bind. destruct (regex_match key) eqn:Hm.
  - destruct (Hall key) as [x Hx]; [by left|done|].
    destruct (add_delay_Return info key x t Hm Hx) as (d & Hd & ->).
    set (info1 := <[key := PDict (<["delay" := PInt x]> d)]> info).
    destruct (IH info1 t) as (info' & Hrun & Hdel & Hsame & Hset).
    { intros k Hk Hkm. destruct (Hall k) as [y Hy]; [by right|done|].
      exists y. unfold info1. by rewrite delay_insert. }
    exists info'. split; [done|]. split; [|split].
    + intros k. rewrite Hdel. unfold info1. by apply delay_insert.
    + intros k Hk. rewrite Hsame.
      * unfold info1. apply lookup_insert_ne.
        destruct Hk as [Hk|Hk]; [|congruence].
        intros ->. apply Hk. by left.
      * destruct Hk as [Hk|Hk]; [left|by right].
        intros Hin. apply Hk. by right.
    + intros k Hk Hkm. apply elem_of_cons in Hk as [->|Hk].
      * exists d, x. split; [done|]. split; [done|].
        rewrite Hsame by (by left). unfold info1. apply lookup_insert_eq.
      * destruct (Hset k Hk Hkm) as (d' & y & Hd' & Hy & Hk').
        assert (key ≠ k) by (intros ->; done).
        exists d', y. unfold info1 in Hd', Hy.
        rewrite lookup_insert_ne in Hd' by done.
        rewrite delay_insert in Hy by done. done.
  - rewrite add_delay_skip by done.
    destruct (IH info t) as (info' & Hrun & Hdel & Hsame & Hset).
    { intros k Hk. apply Hall. by right. }
    exists info'. split; [done|]. split; [done|]. split.
    + intros k Hk. apply Hsame. destruct Hk as [Hk|Hk]; [left|by right].
      intros Hin. apply Hk. by right.
    + intros k Hk Hkm. apply elem_of_cons in Hk as [->|Hk]; [congruence|].
      by apply Hset.
Qed.

(** The loop over the keys, when some replica entry is unfit. *)
Lemma derive_loop_fail keys :
  ∀ info t,
  (∃ k e, k ∈ keys ∧ regex_match k = true ∧ delay info k = Raise e) →
  ∃ e', fold_each add_delay keys info t = (Raise e', t).
Proof.
  induction keys as [|key keys IH]; intros info t (k & e & Hin & Hm & He).
  { by apply elem_of_nil in Hin. }
  simpl. unfold bind. destruct (regex_match key) eqn:Hkey.
  - destruct (delay info key) as [x|e0] eqn:Hx.
    + destruct (add_delay_Return info key x t Hkey Hx) as (d & Hd & ->).
      apply IH. exists k, e. apply elem_of_cons in Hin as [->|Hin]; [congruence|].
      split; [done|]. split; [done|]. by rewrite delay_insert.
    + rewrite (add_delay_Raise info key e0) by done. by exists e0.
  - rewrite add_delay_skip by done. apply IH. exists k, e.
    apply elem_of_cons in Hin as [->|Hin]; [congruence|]. done.
Qed.

Lemma elem_of_keys info k : k ∈ (map_to_list info).*1 ↔ is_Some (info !! k).
Proof.
  rewrite list_elem_of_fmap. split.
  - intros [[k' v] [-> Hin]]. apply elem_of_map_to_list in Hin. by exists v.
  - intros [v Hv]. exists (k, v). split; [done|]. by apply elem_of_map_to_list.
Qed.

Lemma derive_delays_ok info t :
  (∀ k, is_Some (info !! k) → regex_match k = true → ∃ x, delay info k = Return x) →
  ∃ info', derive_delays info t = (Return info', t)
    ∧ (∀ k, regex_match k = false → info' !! k = info !! k)
    ∧ (∀ k, info !! k = None → info' !! k = None)
    ∧ (∀ k v, info !! k = Some v → regex_match k = true →
         ∃ d x, v = PDict d ∧ delay info k = Return x
                ∧ info' !! k = Some (PDict (<["delay" := PInt x]> d))).
Proof.
  intros Hall. unfold derive_delays.
  destruct (derive_loop_ok (map_to_list info).*1 (NoDup_fst_map_to_list info) info t)
    as (info' & Hrun & _ & Hsame & Hset).
  { intros k Hk. apply Hall. by apply elem_of_keys. }
  exists info'. split; [done|]. split; [|split].
  - intros k Hk. apply Hsame. by right.
  - intros k Hk. rewrite Hsame; [done|]. left. rewrite elem_of_keys, Hk.
    by intros [? ?].
  - intros k v Hk Hm. destruct (Hset k) as (d & x & Hd & Hx & Hk'); [|done|].
    + apply elem_of_keys. by exists v.
    + exists d, x. split; [congruence|done].
Qed.

Lemma derive_delays_fail info t :
  (∃ k e, is_Some (info !! k) ∧ regex_match k = true ∧ delay info k = Raise e) →
  ∃ e', derive_delays info t = (Raise e', t).
Proof.
  intros (k & e & Hk & Hm & He). apply derive_loop_fail.
  exists k, e. split; [by apply elem_of_keys|done].
Qed.

(** What a successful derivation leaves behind: the keys it found, and an
    integer delay in every replica entry. *)
Lemma derive_delays_Return info info' t t' :
  derive_delays info t = (Return info', t') →
  t' = t
  ∧ (∀ k, is_Some (info' !! k) ↔ is_Some (info !! k))
  ∧ (∀ k v, info' !! k = Some v → regex_match k = true →
       ∃ d x, v = PDict d ∧ d !! "delay" = Some (PInt x)).
Proof.
  intros Hrun.
  assert (Hall : ∀ k, is_Some (info !! k) → regex_match k = true →
                      ∃ x, delay info k = Return x).
  { intros k Hk Hm. destruct (delay info k) as [x|e] eqn:He; [by exists x|].
    destruct (derive_delays_fail info t) as [e' He']; [by exists k, e|].
    congruence. }
  destruct (derive_delays_ok info t Hall) as (info2 & Hrun2 & Hsame & Hnone & Hset).
  rewrite Hrun in Hrun2. injection Hrun2 as <- <-.
  split; [done|]. split.
  - intros k. destruct (info !! k) as [v|] eqn:Hk.
    + destruct (regex_match k) eqn:Hm.
      * destruct (Hset k v Hk Hm) as (d & x & _ & _ & ->). split; eauto.
      * rewrite Hsame, Hk by done. done.
    + by rewrite Hnone.
  - intros k v Hk' Hm. destruct (info !! k) as [v0|] eqn:Hk.
    + destruct (Hset k v0 Hk Hm) as (d & x & _ & _ & Hk2).
      rewrite Hk' in Hk2. injection Hk2 as ->.
      eexists _, x. split; [done|]. apply lookup_insert_eq.
    + rewrite Hnone in Hk' by done. done.
Qed.
End Delays.

(** C2, as the claim states it, fails: one replica entry with an offset
    that is no number, or the absence of [master_repl_offset], makes
    [parse_info] raise; no mapping comes back, and the second replica of
    [bad_offset_report] never shows its delay. *)
Lemma malformed_replica_fails_parse :
  run (parse_info default_config bad_offset_report) = (Raise ValueError, [])
  ∧ run (parse_info default_config no_master_report) = (Raise KeyError, []).
Proof. by vm_compute. Qed.

(** C2, amended. [delay] computes [int(master_repl_offset) - int(offset)]
    for an entry, and returns exactly when the top-level field exists, the
    entry is a dictionary with an [offset], and both read as integers.
    When it returns for every key matching [slave\d+], the derivation
    returns, stores that delay in each such entry and changes nothing else.
    When it raises for one of them, the derivation raises and so does
    [parse_info]: no entry is skipped. *)
Theorem derive_delays_spec (info : gmap string pyval) t :
  (∀ k x, delay info k = Return x ↔
     ∃ m a d o b,
       info !! "master_repl_offset" = Some m ∧ py_int m = Return a
       ∧ info !! k = Some (PDict d) ∧ d !! "offset" = Some o
       ∧ py_int o = Return b ∧ x = (a - b)%Z)
  ∧ ((∀ k, is_Some (info !! k) → regex_match k = true →
           ∃ x, delay info k = Return x) →
     ∃ info', derive_delays info t = (Return info', t)
       ∧ (∀ k, regex_match k = false → info' !! k = info !! k)
       ∧ (∀ k, info !! k = None → info' !! k = None)
       ∧ (∀ k v, info !! k = Some v → regex_match k = true →
            ∃ d x, v = PDict d ∧ delay info k = Return x
                   ∧ info' !! k = Some (PDict (<["delay" := PInt x]> d))))
  ∧ ((∃ k e, is_Some (info !! k) ∧ regex_match k = true ∧ delay info k = Raise e) →
     (∃ e', derive_delays info t = (Raise e', t))
     ∧ ∀ cfg lines t0 info0,
         fold_each (parse_line cfg) lines ∅ t0 = (Return info0, t) →
         alias_changes info0 = info →
         ∃ e', parse_info cfg lines t0 = (Raise e', t)).
Proof.
  split; [intros; apply delay_Return|]. split; [apply derive_delays_ok|].
  intros Hbad. destruct (derive_delays_fail info t Hbad) as [e' He'].
  split; [by exists e'|].
  intros cfg lines t0 info0 Hlines <-. exists e'.
  unfold parse_info, bind. by rewrite Hlines.
Qed.

(** ** The largest delay *)

Section MaxDelay.
Context (cfg : config).
Implicit Types (info d : gmap string pyval) (t : list event).

Lemma ints_of_fmap (zs : list Z) : ints_of (PInt <$> zs) = Some zs.
Proof.
  induction zs as [|z zs IH]; [done|].
  rewrite fmap_cons. simpl. by rewrite IH.
Qed.

Lemma py_max_ints z (zs : list Z) :
  py_max (PInt <$> z :: zs) = Return (PInt (foldl Z.max z zs)).
Proof. unfold py_max. by rewrite ints_of_fmap. Qed.

Lemma foldl_max_le (zs : list Z) : ∀ z y,
  y ∈ z :: zs → (y ≤ foldl Z.max z zs)%Z.
Proof.
  induction zs as [|z' zs IH]; intros z y Hy; simpl.
  - apply list_elem_of_singleton in Hy as ->. lia.
  - apply elem_of_cons in Hy as [->|Hy].
    + etrans; [|apply IH; by left]. lia.
    + apply elem_of_cons in Hy as [->|Hy].
      * etrans; [|apply IH; by left]. lia.
      * apply IH. by right.
Qed.

Lemma foldl_max_in (zs : list Z) : ∀ z, foldl Z.max z zs ∈ z :: zs.
Proof.
  induction zs as [|z' zs IH]; intros z; simpl; [by left|].
  specialize (IH (Z.max z z')).
  apply elem_of_cons in IH as [->|IH].
  - destruct (Z.max_spec z z') as [[_ ->]|[_ ->]]; [right; left|left].
  - by do 2 right.
Qed.

(** Line 180 on entries that all carry an integer delay. *)
Lemma map_each_delays (items : list (string * pyval)) t :
  Forall (λ x, ∃ d z, x.2 = PDict d ∧ d !! "delay" = Some (PInt z)) items →
  ∃ zs : list Z, map_each (λ x : string * pyval, lift (getitem x.2 "delay")) items t
        = (Return (PInt <$> zs), t)
    ∧ List.length zs = List.length items
    ∧ ∀ z, z ∈ zs ↔ ∃ k d, (k, PDict d) ∈ items ∧ d !! "delay" = Some (PInt z).
Proof.
  induction 1 as [|[k v] items (d & z & Hv & Hd) Hall (zs & Hrun & Hlen & Hzs)].
  { exists []. split; [done|]. split; [done|]. intros z. split.
    - intros Hz. by apply elem_of_nil in Hz.
    - intros (k & d & Hin & _). by apply elem_of_nil in Hin. }
  simpl in Hv. subst v. exists (z :: zs). split; [|split].
  - simpl. unfold bind, lift at 1. simpl. rewrite Hd, Hrun. done.
  - simpl. by rewrite Hlen.
  - intros y. rewrite elem_of_cons, Hzs. split.
    + intros [->|(k' & d' & Hin & Hd')].
      * exists k, d. split; [by left|done].
      * exists k', d'. split; [by right|done].
    + intros (k' & d' & Hin & Hd'). apply elem_of_cons in Hin as [[= -> ->]|Hin].
      * left. congruence.
      * right. eauto.
Qed.

(** Lines 179-185 on a mapping whose replica entries all carry an integer
    delay, when there is one at least. *)
Lemma send_slaves_max_delay_run info t :
  (∀ k v, info !! k = Some v → regex_match k = true →
     ∃ d z, v = PDict d ∧ d !! "delay" = Some (PInt z)) →
  (∃ k, is_Some (info !! k) ∧ regex_match k = true) →
  ∃ m t',
    send_slaves_max_delay cfg info t
    = (Return (<["slaves_max_delay" := PInt m]> info), t')
    ∧ dispatched t' = dispatched t ++ [reading "gauge" "slaves_max_delay" m]
    ∧ (∃ k d, info !! k = Some (PDict d) ∧ regex_match k = true
              ∧ d !! "delay" = Some (PInt m))
    ∧ (∀ k d z, info !! k = Some (PDict d) → regex_match k = true →
         d !! "delay" = Some (PInt z) → (z ≤ m)%Z).
Proof.
  intros Hinv (k0 & [v0 Hk0] & Hm0).
  set (items := List.filter (λ x : string * pyval, regex_match x.1) (map_to_list info)).
  assert (Hitems : ∀ k v, (k, v) ∈ items ↔ info !! k = Some v ∧ regex_match k = true).
  { intros k v. unfold items. rewrite list_elem_of_In, filter_In, <- list_elem_of_In.
    by rewrite elem_of_map_to_list. }
  destruct (map_each_delays items t) as (zs & Hrun & Hlen & Hzs).
  { apply Forall_forall. intros [k v] Hin. apply Hitems in Hin as [Hk Hm].
    simpl. by apply (Hinv k). }
  assert (Hzs' : ∀ z, z ∈ zs ↔
    ∃ k d, info !! k = Some (PDict d) ∧ regex_match k = true
           ∧ d !! "delay" = Some (PInt z)).
  { intros z. rewrite Hzs. split.
    - intros (k & d & Hin & Hd). apply Hitems in Hin as [? ?]. by exists k, d.
    - intros (k & d & Hk & Hm & Hd). exists k, d. split; [|done]. by apply Hitems. }
  destruct zs as [|z zs].
  { assert (Hin : (k0, v0) ∈ items) by (by apply Hitems).
    destruct items; [by apply elem_of_nil in Hin|done]. }
  exists (foldl Z.max z zs).
  unfold send_slaves_max_delay, slaves_delays, bind. fold items. rewrite Hrun.
  simpl. change (PInt z :: list_fmap Z pyval PInt zs) with (PInt <$> z :: zs).
  rewrite py_max_ints.
  destruct (dispatch_value_int cfg
              (<["slaves_max_delay" := PInt (foldl Z.max z zs)]> info)
              "slaves_max_delay" "gauge" None None
              (PInt (foldl Z.max z zs)) (foldl Z.max z zs) t)
    as (t' & Hd & Ht'); [apply lookup_insert_eq|done|done|].
  exists t'. rewrite Hd. split; [done|]. split; [done|]. split.
  - apply Hzs'. apply foldl_max_in.
  - intros k d y Hk Hm Hy. apply foldl_max_le. apply Hzs'. by exists k, d.
Qed.

(** A mapping that [parse_info] returned has an integer delay in every
    replica entry. *)
Lemma parse_info_delays lines info t0 t1 :
  parse_info cfg lines t0 = (Return info, t1) →
  ∀ k v, info !! k = Some v → regex_match k = true →
    ∃ d z, v = PDict d ∧ d !! "delay" = Some (PInt z).
Proof.
  unfold parse_info, bind.
  destruct (fold_each (parse_line cfg) lines ∅ t0) as [[info0|e] t0']; [|done].
  intros Hrun. by apply derive_delays_Return in Hrun as (_ & _ & Hinv).
Qed.
End MaxDelay.

(** C9. On a mapping returned by [parse_info] that has a key matching
    [slave\d+], lines 179-185 store the new entry [slaves_max_delay] in the
    mapping, dispatch it as a gauge, and what they store is the largest
    [delay] of the entries under those keys. *)
Theorem slaves_max_delay_inserted cfg lines t0 t1 (info : gmap string pyval) t :
  parse_info cfg lines t0 = (Return info, t1) →
  (∃ k, is_Some (info !! k) ∧ regex_match k = true) →
  ∃ m t',
    send_slaves_max_delay cfg info t
    = (Return (<["slaves_max_delay" := PInt m]> info), t')
    ∧ dispatched t' = dispatched t ++ [reading "gauge" "slaves_max_delay" m]
    ∧ (∃ k d, info !! k = Some (PDict d) ∧ regex_match k = true
              ∧ d !! "delay" = Some (PInt m))
    ∧ (∀ k d z, info !! k = Some (PDict d) → regex_match k = true →
         d !! "delay" = Some (PInt z) → (z ≤ m)%Z).
Proof.
  intros Hparse Hex. apply send_slaves_max_delay_run; [|done].
  by apply (parse_info_delays cfg lines info t0 t1).
Qed.

Lemma slaves_max_delay_inserted_witness :
  ∃ m t',
    send_slaves_max_delay default_config replica_info []
    = (Return (<["slaves_max_delay" := PInt m]> replica_info), t')
    ∧ dispatched t' = dispatched [] ++ [reading "gauge" "slaves_max_delay" m]
    ∧ (∃ k d, replica_info !! k = Some (PDict d) ∧ regex_match k = true
              ∧ d !! "delay" = Some (PInt m))
    ∧ (∀ k d z, replica_info !! k = Some (PDict d) → regex_match k = true →
         d !! "delay" = Some (PInt z) → (z ≤ m)%Z).
Proof.
  apply (slaves_max_delay_inserted default_config replica_report [] [] replica_info []).
  - vm_compute. reflexivity.
  - exists "slave0". split; [|reflexivity]. vm_compute. eauto.
Defined.

(** On [replica_info] the entry stored and dispatched is 250. *)
Lemma slaves_max_delay_replica_info :
  run (send_slaves_max_delay default_config replica_info)
  = (Return (<["slaves_max_delay" := PInt 250]> replica_info),
     [dispatch (reading "gauge" "slaves_max_delay" 250)]).
Proof. by vm_compute. Qed.

(** ** Events of a computation *)

Section Emits.
Context (P : event → Prop).

Lemma emits_ret {A} (a : A) : emits P (ret a).
Proof. intros t r t' [= <- <-]. exists []. by rewrite app_nil_r. Qed.

Lemma emits_raise {A} e : emits P (@raise A e).
Proof. intros t r t' [= <- <-]. exists []. by rewrite app_nil_r. Qed.

Lemma emits_lift {A} (o : outcome A) : emits P (lift o).
Proof. intros t r t' [= <- <-]. exists []. by rewrite app_nil_r. Qed.

Lemma emits_emit e : P e → emits P (emit e).
Proof. intros He t r t' [= <- <-]. exists [e]. split; [done|]. by constructor. Qed.

Lemma emits_bind {A B} (c : M A) (k : A → M B) :
  emits P c → (∀ a, emits P (k a)) → emits P (bind c k).
Proof.
  intros Hc Hk t r t'. unfold bind.
  destruct (c t) as [[a|e] t1] eqn:H1.
  - intros H2. destruct (Hc _ _ _ H1) as (ext1 & -> & F1).
    destruct (Hk a _ _ _ H2) as (ext2 & -> & F2).
    exists (ext1 ++ ext2). split; [by rewrite app_assoc|]. by apply Forall_app.
  - intros [= <- <-]. by apply (Hc _ _ _ H1).
Qed.

Lemma emits_for_each {A} (xs : list A) (body : A → M unit) :
  (∀ x, emits P (body x)) → emits P (for_each xs body).
Proof.
  intros Hb. induction xs as [|x xs IH]; simpl; [apply emits_ret|].
  apply emits_bind; [apply Hb|by intros _].
Qed.

Lemma emits_fold_each {A S} (body : S → A → M S) (xs : list A) :
  (∀ acc x, emits P (body acc x)) → ∀ acc, emits P (fold_each body xs acc).
Proof.
  intros Hb. induction xs as [|x xs IH]; intros acc; simpl; [apply emits_ret|].
  apply emits_bind; [apply Hb|apply IH].
Qed.

Lemma emits_map_each {A B} (f : A → M B) (xs : list A) :
  (∀ x, emits P (f x)) → emits P (map_each f xs).
Proof.
  intros Hf. induction xs as [|x xs IH]; simpl; [apply emits_ret|].
  apply emits_bind; [apply Hf|]. intros y.
  apply emits_bind; [apply IH|]. intros ys. apply emits_ret.
Qed.

Lemma emits_log_verbose cfg m :
  (∀ m', P (collectd_info m')) → emits P (log_verbose cfg m).
Proof.
  intros HP. unfold log_verbose.
  destruct (negb (VERBOSE_LOGGING cfg)); [apply emits_ret|by apply emits_emit].
Qed.
End Emits.

Lemma emits_mono (P Q : event → Prop) {A} (c : M A) :
  (∀ e, P e → Q e) → emits P c → emits Q c.
Proof.
  intros HPQ Hc t r t' H. destruct (Hc _ _ _ H) as (ext & -> & F).
  exists ext. split; [done|]. eapply Forall_impl; eauto.
Qed.

Lemma dispatched_quiet ext : Forall no_dispatch ext → dispatched ext = [].
Proof.
  induction 1 as [|e ext He _ IH]; [done|].
  destruct e; simpl in *; try done.
Qed.

Lemma sent_quiet ext : Forall no_socket ext → sent ext = [].
Proof.
  induction 1 as [|e ext He _ IH]; [done|].
  destruct e; simpl in *; try done.
Qed.

Lemma closed_quiet ext : Forall no_socket ext → closed ext = false.
Proof.
  induction 1 as [|e ext He _ IH]; [done|].
  destruct e; simpl in *; try done.
Qed.

Lemma sent_app t1 t2 : sent (t1 ++ t2) = sent t1 ++ sent t2.
Proof. apply omap_app. Qed.

(** The step of a proof that some computation emits events of one kind:
    through binds and loops, into the branches of tests. *)
Ltac emits_step :=
  first
    [ apply emits_ret | apply emits_raise | apply emits_lift
    | apply emits_log_verbose; by intros
    | apply emits_emit; done
    | apply emits_bind; [|intros]
    | apply emits_for_each; intros
    | apply emits_fold_each; intros
    | apply emits_map_each; intros
    | match goal with
      | |- emits _ (if ?b then _ else _) => destruct b
      | |- emits _ (match ?x with _ => _ end) => destruct x
      | |- emits _ (let '(_, _) := ?x in _) => destruct x
      end ].

Section EmitsPlugin.
Context (cfg : config).
Implicit Types (info : gmap string pyval).

Lemma parse_line_emits info line : emits is_info (parse_line cfg info line).
Proof. unfold parse_line. repeat emits_step. Qed.

Lemma add_delay_emits info key : emits (λ _, False) (add_delay info key).
Proof. unfold add_delay. repeat emits_step. Qed.

Lemma parse_info_emits lines : emits is_info (parse_info cfg lines).
Proof.
  unfold parse_info, derive_delays. apply emits_bind.
  - apply emits_fold_each. intros. apply parse_line_emits.
  - intros info. apply emits_fold_each. intros acc key.
    apply (emits_mono (λ _, False)); [done|apply add_delay_emits].
Qed.

Lemma fetch_info_emits p : emits no_dispatch (fetch_info cfg p).
Proof.
  unfold fetch_info.
  repeat first
    [ apply (emits_mono is_info no_dispatch); [by intros []|apply parse_info_emits]
    | emits_step ].
Qed.

Lemma dispatch_value_emits o key ty ti variants :
  emits no_socket (dispatch_value cfg o key ty ti variants).
Proof. unfold dispatch_value. repeat emits_step. Qed.

Lemma send_all_emits info : emits no_socket (send_all cfg info).
Proof.
  unfold send_all, send_high_level, send_slaves_max_delay, slaves_delays,
    send_replication, send_if_present, send_wildcards, send_repl,
    send_vm_stats, send_db_keys, send_slave_delay.
  repeat first [apply dispatch_value_emits | emits_step].
Qed.
End EmitsPlugin.

(** Keys are told apart by their first character. *)
Lemma startswith_head a p key :
  startswith (String a p) key = true → ∃ rest, key = String a rest.
Proof.
  unfold startswith. destruct key as [|b key]; [done|].
  cbn [String.prefix]. destruct (ascii_dec a b) as [->|]; [eauto|done].
Qed.

Lemma startswith_other_head a b p q key :
  a ≠ b → startswith (String a p) key = true → startswith (String b q) key = false.
Proof.
  intros Hab Ha. apply startswith_head in Ha as [rest ->].
  unfold startswith. cbn [String.prefix]. by destruct (ascii_dec b a) as [->|].
Qed.
(** ** The database keys *)

Section Databases.
Context (cfg : config).
Implicit Types (info d : gmap string pyval) (t : list event).



End Databases.

Section DatabasesLoop.
Context (cfg : config).
Implicit Types (info d : gmap string pyval) (t : list event).

Lemma send_wildcards_tests info :
  send_wildcards cfg info = for_each (map_to_list info).*1 (wildcard_tests cfg info).
Proof. reflexivity. Qed.






End DatabasesLoop.



(** ** The connection *)

Section Connection.
Context (cfg : config).
Implicit Types (info : gmap string pyval) (t : list event).

Lemma parse_line_closed info line r t t' :
  parse_line cfg info line t = (r, t') → closed t' = closed t.
Proof.
  unfold parse_line. destruct (contains_char ":" line); simpl.
  - destruct (split ":" line) as [|? [|? [|? ?]]]; by intros [= <- <-].
  - unfold bind.
    destruct (log_verbose_run cfg
      (Fmt "redis_info plugin: Bad format for info line: %s" [PStr line]) t)
      as (t1 & -> & _ & Hc). by intros [= <- <-].
Qed.

Lemma parse_lines_closed lines : ∀ info r t t',
  fold_each (parse_line cfg) lines info t = (r, t') → closed t' = closed t.
Proof.
  induction lines as [|line lines IH]; intros info r t t'; simpl.
  { by intros [= <- <-]. }
  unfold bind. destruct (parse_line cfg info line t) as [[info1|e] t1] eqn:H1.
  - intros H. rewrite (IH _ _ _ _ H). by apply parse_line_closed in H1.
  - intros [= <- <-]. by apply parse_line_closed in H1.
Qed.

Lemma add_delay_trace info key r t t' : add_delay info key t = (r, t') → t' = t.
Proof.
  destruct (regex_match key) eqn:Hm.
  - destruct (delay info key) as [x|e] eqn:Hx.
    + destruct (add_delay_Return info key x t Hm Hx) as (d & _ & ->). by intros [= <- <-].
    + rewrite (add_delay_Raise info key e) by done. by intros [= <- <-].
  - rewrite add_delay_skip by done. by intros [= <- <-].
Qed.

Lemma derive_loop_trace keys : ∀ info r t t',
  fold_each add_delay keys info t = (r, t') → t' = t.
Proof.
  induction keys as [|key keys IH]; intros info r t t'; simpl.
  { by intros [= <- <-]. }
  unfold bind. destruct (add_delay info key t) as [[info1|e] t1] eqn:H1.
  - intros H. apply IH in H as ->. by apply add_delay_trace in H1.
  - intros [= <- <-]. by apply add_delay_trace in H1.
Qed.

Lemma parse_info_closed lines r t t' :
  parse_info cfg lines t = (r, t') → closed t' = closed t.
Proof.
  unfold parse_info, bind.
  destruct (fold_each (parse_line cfg) lines ∅ t) as [[info0|e] t0] eqn:H0.
  - intros H. apply derive_loop_trace in H as ->. by apply parse_lines_closed in H0.
  - intros [= <- <-]. by apply parse_lines_closed in H0.
Qed.

(** When [fetch_info] returns a report, it has closed the socket. *)
Lemma fetch_info_report_closed p info t t' :
  fetch_info cfg p t = (Return (Some info), t') → closed t' = true.
Proof.
  unfold fetch_info. destruct (accepts p); simpl; [|by intros [= <-]].
  unfold bind at 1. simpl.
  unfold bind at 1.
  destruct (log_verbose_run cfg
    (Fmt "Connected to Redis at %s:%s" [PStr (REDIS_HOST cfg); PInt (REDIS_PORT cfg)])
    (t ++ [sock_connect (REDIS_HOST cfg) (REDIS_PORT cfg)])) as (t1 & -> & _ & _).
  unfold bind at 1.
  match goal with |- context [(if ?b then ?x else ?y) t1] =>
    destruct ((if b then x else y) t1) as [[[fp|]|e] t2] end; [|done..].
  unfold bind at 1.
  destruct (log_verbose_run cfg (Fmt "Sending info command" []) t2) as (t3 & -> & _ & _).
  unfold bind at 1. simpl.
  destruct (readline fp) as [status_line fp'].
  unfold bind at 1, lift.
  destruct (int_of_str (slice_1_m1 status_line)) as [n|]; [|done].
  unfold bind at 1.
  destruct (log_verbose_run cfg (Fmt "Received data: %s" [PStr (read fp' n)])
              (t3 ++ [sock_sendall ("info" +:+ CRLF)])) as (t4 & -> & _ & _).
  unfold bind at 1. simpl. unfold bind at 1.
  destruct (parse_info cfg (split LF (read fp' n)) (t4 ++ [sock_close]))
    as [[info1|e] t5] eqn:Hp; [|done].
  intros [= <- <-]. apply parse_info_closed in Hp as ->.
  rewrite closed_app. simpl. apply orb_true_r.
Qed.
End Connection.

(** C8. [fetch_info] closes the socket on line 73 only: when the server
    refuses the password, line 65 returns [None] with the connection made
    and never closed; when the status line is no length, line 70 raises
    with the socket open as well.  On the path that returns a report the
    socket is closed. *)
Theorem fetch_info_failure_leaves_socket_open :
  run (fetch_info password_config denying_peer)
  = (Return None,
     [sock_connect "localhost" 6379;
      sock_sendall ("auth secret" +:+ CRLF);
      collectd_error (Fmt "redis_info plugin: Failed to authenticate" [])])
  ∧ closed (run (fetch_info password_config denying_peer)).2 = false
  ∧ run (fetch_info default_config erring_peer)
    = (Raise ValueError,
       [sock_connect "localhost" 6379; sock_sendall ("info" +:+ CRLF)])
  ∧ closed (run (fetch_info default_config erring_peer)).2 = false
  ∧ closed (run (fetch_info default_config answering_peer)).2 = true
  ∧ ∀ cfg p info t t',
      fetch_info cfg p t = (Return (Some info), t') → closed t' = true.
Proof.
  repeat split; try by vm_compute.
  intros cfg p info t t'. apply fetch_info_report_closed.
Qed.

(** * Further properties *)

(** ** More on parsing *)

Section MoreParsing.
Context (cfg : config).
Implicit Types (info d : gmap string pyval) (t : list event).

Lemma parse_line_colon info line t :
  contains_char ":" line = true →
  parse_line cfg info line t
  = (match split ":" line with
     | [key; val] => Return (<[key := parse_val val]> info)
     | _ => Raise ValueError
     end, t).
Proof.
  intros H. unfold parse_line. rewrite H. simpl.
  by destruct (split ":" line) as [|? [|? [|? ?]]].
Qed.

Lemma parse_lines_skip lines : ∀ info t t0,
  (fold_each (parse_line cfg) lines info t).1
  = (fold_each (parse_line cfg) (List.filter (contains_char ":") lines) info t0).1.
Proof.
  induction lines as [|line lines IH]; intros info t t0; simpl; [done|].
  destruct (contains_char ":" line) eqn:Hc; simpl; unfold bind.
  - rewrite !parse_line_colon by done.
    destruct (split ":" line) as [|? [|? [|? ?]]]; first [done|apply IH].
  - destruct (parse_line_no_colon cfg info line t Hc) as [t1 ->]. apply IH.
Qed.

Lemma add_delay_pure info key t t0 :
  (add_delay info key t).1 = (add_delay info key t0).1.
Proof.
  unfold add_delay, bind, lift. destruct (regex_match key); [|reflexivity].
  destruct (delay info key); [|reflexivity]. simpl.
  destruct (info !! key) as [[]|]; reflexivity.
Qed.

Lemma derive_loop_pure keys : ∀ info t t0,
  (fold_each add_delay keys info t).1 = (fold_each add_delay keys info t0).1.
Proof.
  induction keys as [|key keys IH]; intros info t t0; simpl; [done|].
  unfold bind. pose proof (add_delay_pure info key t t0) as Hp.
  destruct (add_delay info key t) as [[info1|e] t1],
           (add_delay info key t0) as [[info2|e2] t2]; simpl in Hp; try done;
    injection Hp as <-; first [done|apply IH].
Qed.

(** The mapping or the exception of [parse_info] depends on the lines only,
    not on what was logged before. *)
Lemma parse_info_pure lines t t0 :
  (parse_info cfg lines t).1 = (parse_info cfg lines t0).1.
Proof.
  unfold parse_info, bind.
  pose proof (parse_lines_skip lines ∅ t t0) as H1.
  pose proof (parse_lines_skip lines ∅ t0 t0) as H2.
  rewrite <- H2 in H1. clear H2.
  destruct (fold_each (parse_line cfg) lines ∅ t) as [[info1|e1] t1],
           (fold_each (parse_line cfg) lines ∅ t0) as [[info2|e2] t2];
    simpl in H1; try done;
    injection H1 as <-; first [done|apply derive_loop_pure].
Qed.

Lemma foldl_insert_list_to_map {V W} (f : V → W) (pairs : list (string * V)) :
  foldl (λ (m : gmap string W) kv, <[kv.1 := f kv.2]> m) ∅ pairs
  = f <$> list_to_map (reverse pairs).
Proof.
  induction pairs as [|[k v] pairs IH] using rev_ind.
  { symmetry. apply fmap_empty. }
  rewrite foldl_app, reverse_app. simpl. rewrite IH. by rewrite fmap_insert.
Qed.

Lemma parse_lines_render pairs : ∀ info t,
  Forall (λ kv : string * string,
            contains_char ":" kv.1 = false ∧ contains_char ":" kv.2 = false) pairs →
  fold_each (parse_line cfg) (render <$> pairs) info t
  = (Return (foldl (λ m kv, <[kv.1 := parse_val kv.2]> m) info pairs), t).
Proof.
  induction pairs as [|[k v] pairs IH]; intros info t Hall; [done|].
  inversion_clear Hall as [|? ? [Hk Hv] Hrest]. simpl in *.
  unfold bind, render at 1. simpl.
  rewrite parse_line_one_colon by done. by apply IH.
Qed.

Lemma rsplit_last_app c k v :
  contains_char c v = false → rsplit_last c (k +:+ String c v) = Some (k, v).
Proof.
  intros Hv. induction k as [|a k IH]; simpl.
  - apply rsplit_last_None in Hv. rewrite Hv. by rewrite decide_True.
  - by rewrite IH.
Qed.

Lemma sub_entry_render d k v :
  contains_char "=" v = false → sub_entry d (render_sub (k, v)) = <[k := PStr v]> d.
Proof.
  intros Hv. unfold sub_entry, render_sub, rpartition. simpl.
  by rewrite rsplit_last_app.
Qed.

Lemma split_join c pieces :
  pieces ≠ [] → Forall (λ p, contains_char c p = false) pieces →
  split c (join c pieces) = pieces.
Proof.
  intros Hne Hall. induction Hall as [|p pieces Hp Hall IH]; [done|].
  destruct pieces as [|q pieces].
  - simpl. by apply split_absent.
  - change (join c (p :: q :: pieces)) with (p +:+ String c (join c (q :: pieces))).
    rewrite split_cons by done. by rewrite IH.
Qed.

Lemma contains_char_join c p q pieces :
  contains_char c (join c (p :: q :: pieces)) = true.
Proof.
  change (join c (p :: q :: pieces)) with (p +:+ String c (join c (q :: pieces))).
  rewrite contains_char_app. simpl. rewrite decide_True by done. apply orb_true_r.
Qed.
End MoreParsing.

(** X1. Lines without a colon count for nothing: [parse_info] returns the
    same mapping, or raises the same exception, as on the report with
    those lines removed. *)
Theorem parse_info_skips_lines_without_colon cfg lines t :
  (parse_info cfg lines t).1
  = (parse_info cfg (List.filter (contains_char ":") lines) t).1.
Proof.
  unfold parse_info, bind.
  pose proof (parse_lines_skip cfg lines ∅ t t) as H.
  destruct (fold_each (parse_line cfg) lines ∅ t) as [[info1|e1] t1],
     (fold_each (parse_line cfg) (List.filter (contains_char ":") lines) ∅ t)
       as [[info2|e2] t2]; simpl in H; try done;
    injection H as <-; first [done|apply derive_loop_pure].
Qed.

(** The loop over the lines, on the lines [key:val] of pairs without
    colons: each key ends up bound to the parsed value of the last pair
    naming it. *)
Lemma parse_lines_last_wins cfg (pairs : list (string * string)) t :
  Forall (λ kv : string * string,
            contains_char ":" kv.1 = false ∧ contains_char ":" kv.2 = false) pairs →
  fold_each (parse_line cfg) (render <$> pairs) ∅ t
  = (Return (parse_val <$> list_to_map (reverse pairs)), t).
Proof.
  intros Hall. rewrite parse_lines_render by done.
  by rewrite foldl_insert_list_to_map.
Qed.

(** Without replica keys the derivation of the delays changes nothing. *)
Lemma derive_delays_no_replica (info : gmap string pyval) t :
  (∀ k, is_Some (info !! k) → regex_match k = false) →
  derive_delays info t = (Return info, t).
Proof.
  intros Hno. destruct (derive_delays_ok info t) as (info' & -> & Hsame & Hnone & _).
  { intros k Hk Hm. rewrite (Hno k Hk) in Hm. done. }
  f_equal. f_equal. apply map_eq. intros k.
  destruct (regex_match k) eqn:Hm; [|by apply Hsame].
  destruct (info !! k) as [v|] eqn:Hk; [|by apply Hnone].
  rewrite (Hno k) in Hm by eauto. done.
Qed.

(** X2. [parse_info] reads back what was written: on the lines [key:val] of
    a list of pairs without colons and without replica keys, it returns the
    mapping that binds each key to the parsed value of the last pair
    naming it, completed by line 100, and logs nothing. *)
Theorem parse_info_reads_back cfg (pairs : list (string * string)) t :
  Forall (λ kv : string * string,
            contains_char ":" kv.1 = false ∧ contains_char ":" kv.2 = false
            ∧ regex_match kv.1 = false) pairs →
  parse_info cfg (render <$> pairs) t
  = (Return (alias_changes (parse_val <$> list_to_map (reverse pairs))), t).
Proof.
  intros Hall. unfold parse_info, bind.
  rewrite parse_lines_last_wins
    by (eapply Forall_impl; [exact Hall|]; by intros kv (? & ? & _)).
  apply derive_delays_no_replica. intros k [v Hk].
  unfold alias_changes in Hk.
  destruct (decide ("changes_since_last_save" = k)) as [<-|Hne]; [done|].
  rewrite lookup_insert_ne, lookup_fmap in Hk by done.
  destruct (list_to_map (reverse pairs) !! k) as [w|] eqn:Hw; [|done].
  apply elem_of_list_to_map_2, elem_of_reverse in Hw.
  rewrite reverse_involutive in Hw.
  rewrite Forall_forall in Hall. by destruct (Hall _ Hw) as (_ & _ & Hm).
Qed.

Lemma parse_info_reads_back_witness :
  parse_info default_config (render <$> server_fields) []
  = (Return (alias_changes (parse_val <$> list_to_map (reverse server_fields))), []).
Proof.
  apply (parse_info_reads_back default_config server_fields []).
  repeat constructor.
Defined.

(** X3. A value written as two or more pieces [k=v] joined by commas parses
    to the dictionary that binds each [k] to the string of the last piece
    naming it, provided no [k] or [v] holds a comma and no [v] holds [=]. *)
Theorem parse_val_reads_subfields (pairs : list (string * string)) :
  (2 ≤ List.length pairs)%nat →
  Forall (λ kv : string * string,
            contains_char "," kv.1 = false ∧ contains_char "," kv.2 = false
            ∧ contains_char "=" kv.2 = false) pairs →
  parse_val (join "," (render_sub <$> pairs))
  = PDict (PStr <$> list_to_map (reverse pairs)).
Proof.
  intros Hlen Hall. unfold parse_val.
  destruct pairs as [|kv1 [|kv2 pairs]]; simpl in Hlen; [lia..|].
  rewrite !fmap_cons, contains_char_join. rewrite <- !fmap_cons.
  rewrite split_join.
  - f_equal. rewrite <- foldl_insert_list_to_map.
    set (ps := kv1 :: kv2 :: pairs) in *. clearbody ps.
    generalize (∅ : gmap string pyval).
    induction Hall as [|[k v] ps (_ & _ & Hv) _ IH]; intros d; [done|].
    rewrite fmap_cons. simpl. rewrite sub_entry_render by done. apply IH.
  - done.
  - apply Forall_fmap. eapply Forall_impl; [exact Hall|].
    intros [k v] (Hk & Hv & _). unfold render_sub. simpl in *.
    rewrite contains_char_app, Hk. simpl. done.
Qed.

Lemma parse_val_reads_subfields_witness :
  parse_val (join "," (render_sub <$> db_subfields))
  = PDict (PStr <$> list_to_map (reverse db_subfields)).
Proof.
  apply (parse_val_reads_subfields db_subfields).
  - simpl. lia.
  - repeat constructor.
Defined.

(** The key written by line 100 is still there when [parse_info] returns. *)
Lemma parse_info_has_changes cfg lines t (info : gmap string pyval) t' :
  parse_info cfg lines t = (Return info, t') →
  is_Some (info !! "changes_since_last_save").
Proof.
  unfold parse_info, bind.
  destruct (fold_each (parse_line cfg) lines ∅ t) as [[info0|e] t0]; [|done].
  intros Hrun. apply derive_delays_Return in Hrun as (_ & Hkeys & _).
  apply Hkeys. unfold alias_changes. rewrite lookup_insert_eq. eauto.
Qed.

Lemma size_of_key (info : gmap string pyval) k :
  is_Some (info !! k) → size info ≠ 0%nat.
Proof.
  intros [v Hv] Hsize. apply map_size_empty_iff in Hsize. subst info.
  by rewrite lookup_empty in Hv.
Qed.

(** X4. A mapping that [parse_info] returns always holds the key
    [changes_since_last_save], so it is never empty. *)
Theorem parse_info_never_empty cfg lines t (info : gmap string pyval) t' :
  parse_info cfg lines t = (Return info, t') →
  is_Some (info !! "changes_since_last_save") ∧ size info ≠ 0%nat.
Proof.
  intros Hrun. apply parse_info_has_changes in Hrun.
  split; [done|]. by apply (size_of_key info "changes_since_last_save").
Qed.

Lemma parse_info_never_empty_witness :
  is_Some (replica_info !! "changes_since_last_save") ∧ size replica_info ≠ 0%nat.
Proof.
  apply (parse_info_never_empty default_config replica_report [] replica_info []).
  vm_compute. reflexivity.
Defined.

(** ** More on the connection *)

Section MoreConnection.
Context (cfg : config).
Implicit Types (info : gmap string pyval) (t : list event).

Lemma readline_line l rest :
  contains_char LF l = false →
  readline (l +:+ String LF rest) = (l +:+ String LF "", rest).
Proof.
  intros H. induction l as [|a l IH]; simpl in *; [done|].
  destruct (decide (a = LF)); [done|]. by rewrite IH.
Qed.

Lemma drop_last_snoc s a : drop_last (s +:+ String a "") = s.
Proof.
  induction s as [|b s IH]; [done|]. simpl.
  destruct (s +:+ String a "") eqn:E; [by destruct s|]. by rewrite IH.
Qed.

Lemma take_str_app body rest :
  take_str (String.length body) (body +:+ rest) = body.
Proof. induction body as [|a body IH]; simpl; [by destruct rest|]. by rewrite IH. Qed.

Lemma take_str_all n s : (String.length s ≤ n)%nat → take_str n s = s.
Proof.
  revert n. induction s as [|a s IH]; intros n Hn; simpl in *; [by destruct n|].
  destruct n as [|n]; [lia|]. simpl. rewrite IH; [done|lia].
Qed.

Lemma readline_status c n_text tail :
  c ≠ LF → contains_char LF n_text = false →
  readline (String c (n_text +:+ CRLF +:+ tail)) = (String c (n_text +:+ CRLF), tail).
Proof.
  intros Hc Hn.
  assert (H : readline (n_text +:+ CRLF +:+ tail) = (n_text +:+ CRLF, tail)).
  { induction n_text as [|a n_text IH]; [done|].
    simpl in Hn. destruct (decide (a = LF)) as [|Ha]; [done|].
    change (readline (String a (n_text +:+ CRLF +:+ tail))
            = (String a (n_text +:+ CRLF), tail)).
    simpl. rewrite decide_False by done. by rewrite IH. }
  simpl. rewrite decide_False by done. by rewrite H.
Qed.

Lemma slice_status c n_text :
  slice_1_m1 (String c (n_text +:+ CRLF)) = n_text +:+ String CR "".
Proof.
  simpl. induction n_text as [|a n_text IH]; [done|].
  change (drop_last (String a (n_text +:+ CRLF)) = String a (n_text +:+ String CR "")).
  simpl. rewrite IH. by destruct n_text.
Qed.

Lemma log_verbose_sent m t :
  ∃ t', log_verbose cfg m t = (Return tt, t') ∧ sent t' = sent t.
Proof.
  unfold log_verbose. destruct (VERBOSE_LOGGING cfg); simpl.
  - eexists; split; [reflexivity|]. rewrite sent_app. simpl. apply app_nil_r.
  - by eexists.
Qed.

Lemma parse_info_sent lines r t t' :
  parse_info cfg lines t = (r, t') → sent t' = sent t.
Proof.
  intros H. destruct (parse_info_emits cfg lines _ _ _ H) as (ext & -> & F).
  rewrite sent_app, (sent_quiet ext); [apply app_nil_r|].
  eapply Forall_impl; [exact F|]. by intros [].
Qed.

(** What [fetch_info] returns once connected, when no password is set: the
    status line decides how much of the rest is parsed. *)
Lemma fetch_info_no_auth p status_line fp t :
  accepts p = true → truthy (REDIS_PASS cfg) = false →
  readline (sends p) = (status_line, fp) →
  (fetch_info cfg p t).1
  = match py_int (PStr (slice_1_m1 status_line)) with
    | Return n =>
        match (parse_info cfg (split LF (read fp n)) t).1 with
        | Return info => Return (Some info)
        | Raise e => Raise e
        end
    | Raise e => Raise e
    end.
Proof.
  intros Ha Hp Hl. unfold fetch_info. rewrite Ha, Hp. simpl.
  unfold bind at 1. simpl. unfold bind at 1.
  destruct (log_verbose_sent
    (Fmt "Connected to Redis at %s:%s" [PStr (REDIS_HOST cfg); PInt (REDIS_PORT cfg)])
    (t ++ [sock_connect (REDIS_HOST cfg) (REDIS_PORT cfg)])) as (t1 & -> & _).
  unfold bind at 1. simpl. unfold bind at 1.
  destruct (log_verbose_sent (Fmt "Sending info command" []) t1) as (t2 & -> & _).
  unfold bind at 1. simpl. rewrite Hl. unfold bind at 1, lift.
  destruct (int_of_str (slice_1_m1 status_line)) as [n|]; [|done].
  unfold bind at 1.
  destruct (log_verbose_sent (Fmt "Received data: %s" [PStr (read fp n)])
              (t2 ++ [sock_sendall ("info" +:+ CRLF)])) as (t3 & -> & _).
  unfold bind at 1. simpl. unfold bind at 1.
  rewrite (parse_info_pure cfg _ t (t3 ++ [sock_close])).
  by destruct (parse_info cfg (split LF (read fp n)) (t3 ++ [sock_close])) as [[?|?] ?].
Qed.
End MoreConnection.

(** X5. The reply is framed by its length line alone.  When the server
    writes one character, a decimal length, CRLF, a body of that length and
    anything after it, [fetch_info] parses the lines of the body and never
    looks at the rest; the first character is dropped unread, so it need
    not be [$]. *)
Theorem fetch_info_reads_declared_length cfg p c n_text body rest t :
  accepts p = true → truthy (REDIS_PASS cfg) = false →
  c ≠ LF → contains_char LF n_text = false →
  sends p = String c (n_text +:+ CRLF +:+ body +:+ rest) →
  int_of_str (n_text +:+ String CR "") = Some (Z.of_nat (String.length body)) →
  (fetch_info cfg p t).1
  = match (parse_info cfg (split LF body) t).1 with
    | Return info => Return (Some info)
    | Raise e => Raise e
    end.
Proof.
  intros Ha Hp Hc Hn Hs Hlen.
  rewrite (fetch_info_no_auth cfg p (String c (n_text +:+ CRLF)) (body +:+ rest));
    [|done|done|by rewrite Hs, readline_status].
  rewrite slice_status. simpl. rewrite Hlen. unfold read.
  rewrite decide_False by lia. by rewrite Nat2Z.id, take_str_app.
Qed.

Lemma fetch_info_reads_declared_length_witness :
  (fetch_info default_config chatty_peer []).1
  = match (parse_info default_config (split LF ("role:master" +:+ CRLF)) []).1 with
    | Return info => Return (Some info)
    | Raise e => Raise e
    end.
Proof.
  apply (fetch_info_reads_declared_length default_config chatty_peer
           "$"%char "13" ("role:master" +:+ CRLF) ("+PONG" +:+ CRLF) []).
  - reflexivity.
  - reflexivity.
  - discriminate.
  - reflexivity.
  - reflexivity.
  - reflexivity.
Defined.

(** X6. A negative length, or one that exceeds what the server writes
    before it stops, makes [fetch_info] parse everything that follows the
    status line: the nil reply [$-1] is not told apart from a report, and
    a short read is not noticed. *)
Theorem fetch_info_reads_to_end cfg p c n_text remainder n t :
  accepts p = true → truthy (REDIS_PASS cfg) = false →
  c ≠ LF → contains_char LF n_text = false →
  sends p = String c (n_text +:+ CRLF +:+ remainder) →
  int_of_str (n_text +:+ String CR "") = Some n →
  (n < 0 ∨ Z.of_nat (String.length remainder) ≤ n)%Z →
  (fetch_info cfg p t).1
  = match (parse_info cfg (split LF remainder) t).1 with
    | Return info => Return (Some info)
    | Raise e => Raise e
    end.
Proof.
  intros Ha Hp Hc Hn Hs Hint Hlen.
  rewrite (fetch_info_no_auth cfg p (String c (n_text +:+ CRLF)) remainder);
    [|done|done|by rewrite Hs, readline_status].
  rewrite slice_status. simpl. rewrite Hint. unfold read.
  destruct (decide (n < 0)%Z); [done|].
  rewrite take_str_all; [done|lia].
Qed.

Lemma fetch_info_reads_to_end_witness :
  (fetch_info default_config nil_peer []).1
  = match (parse_info default_config (split LF ("role:slave" +:+ CRLF)) []).1 with
    | Return info => Return (Some info)
    | Raise e => Raise e
    end.
Proof.
  apply (fetch_info_reads_to_end default_config nil_peer
           "$"%char "-1" ("role:slave" +:+ CRLF) (-1)%Z []).
  - reflexivity.
  - reflexivity.
  - discriminate.
  - reflexivity.
  - reflexivity.
  - reflexivity.
  - left. reflexivity.
Defined.

(** X7. What [fetch_info] writes on the socket.  Nothing when the
    connection fails.  Without a password, the [info] command alone.  With
    one, the [auth] command first, and [info] after it only when the reply
    to [auth] starts with [+OK]; otherwise [fetch_info] returns [None]
    without having asked for the report. *)
Theorem fetch_info_sends cfg p t :
  sent (fetch_info cfg p t).2
  = sent t ++
    (if accepts p then
       if truthy (REDIS_PASS cfg) then
         ("auth " +:+ default "" (REDIS_PASS cfg) +:+ CRLF)
         :: (if startswith "+OK" (readline (sends p)).1 then ["info" +:+ CRLF] else [])
       else ["info" +:+ CRLF]
     else [])
  ∧ (accepts p = true → truthy (REDIS_PASS cfg) = true →
     startswith "+OK" (readline (sends p)).1 = false →
     (fetch_info cfg p t).1 = Return None).
Proof.
  split.
  2: { intros Ha Hp Hok. unfold fetch_info. rewrite Ha, Hp. simpl.
       unfold bind at 1. simpl. unfold bind at 1.
       destruct (log_verbose_sent cfg
         (Fmt "Connected to Redis at %s:%s" [PStr (REDIS_HOST cfg); PInt (REDIS_PORT cfg)])
         (t ++ [sock_connect (REDIS_HOST cfg) (REDIS_PORT cfg)])) as (t1 & -> & _).
       unfold bind at 1. unfold bind at 1. simpl.
       destruct (readline (sends p)) as [response fp]. simpl in Hok.
       by rewrite Hok. }
  unfold fetch_info. destruct (accepts p); simpl.
  2: { unfold bind, emit, ret; simpl. rewrite sent_app. simpl. done. }
  unfold bind at 1. simpl. unfold bind at 1.
  destruct (log_verbose_sent cfg
    (Fmt "Connected to Redis at %s:%s" [PStr (REDIS_HOST cfg); PInt (REDIS_PORT cfg)])
    (t ++ [sock_connect (REDIS_HOST cfg) (REDIS_PORT cfg)])) as (t1 & -> & Ht1).
  rewrite sent_app in Ht1. simpl in Ht1. rewrite app_nil_r in Ht1.
  assert (Hinfo : ∀ fp t2,
    sent ((log_verbose cfg (Fmt "Sending info command" []);;
           emit (sock_sendall ("info" +:+ CRLF));;
           let '(status_line, fp0) := readline fp in
           let* content_length := lift (py_int (PStr (slice_1_m1 status_line))) in
           log_verbose cfg (Fmt "Received data: %s" [PStr (read fp0 content_length)]);;
           emit sock_close;;
           let* info := parse_info cfg (split LF (read fp0 content_length)) in
           ret (Some info)) t2).2 = sent t2 ++ ["info" +:+ CRLF]).
  { intros fp t2. unfold bind at 1.
    destruct (log_verbose_sent cfg (Fmt "Sending info command" []) t2) as (t3 & -> & Ht3).
    unfold bind at 1. simpl. destruct (readline fp) as [status_line fp'].
    unfold bind at 1, lift.
    destruct (int_of_str (slice_1_m1 status_line)) as [n|]; simpl.
    2: { rewrite sent_app, Ht3. done. }
    unfold bind at 1.
    destruct (log_verbose_sent cfg (Fmt "Received data: %s" [PStr (read fp' n)])
                (t3 ++ [sock_sendall ("info" +:+ CRLF)])) as (t4 & -> & Ht4).
    unfold bind at 1. simpl. unfold bind at 1.
    destruct (parse_info cfg (split LF (read fp' n)) (t4 ++ [sock_close]))
      as [[info|e] t5] eqn:Hp; simpl;
      apply parse_info_sent in Hp; rewrite Hp, sent_app, Ht4, sent_app, Ht3;
      simpl; by rewrite app_nil_r. }
  destruct (truthy (REDIS_PASS cfg)); simpl.
  - unfold bind at 1. unfold bind at 1. simpl.
    destruct (readline (sends p)) as [response fp]. simpl.
    destruct (startswith "+OK" response); simpl.
    + unfold bind at 1.
      destruct (log_verbose_sent cfg (Fmt "redis_info plugin: Authenticated" [])
                  (t1 ++ [sock_sendall ("auth " +:+ default "" (REDIS_PASS cfg) +:+ CRLF)]))
        as (t2 & -> & Ht2). simpl.
      rewrite Hinfo, Ht2, sent_app, Ht1. simpl.
      by rewrite <- !app_assoc.
    + unfold bind, emit, ret; simpl.
      rewrite !sent_app, Ht1. simpl. by rewrite <- !app_assoc.
  - unfold bind at 1. simpl. by rewrite Hinfo, Ht1.
Qed.

(** ** Computations and the trace before them *)

Section Framed.

Lemma framed_ret {A} (a : A) : framed (ret a).
Proof. intros t. unfold ret. simpl. by rewrite app_nil_r. Qed.

Lemma framed_raise {A} e : framed (@raise A e).
Proof. intros t. unfold raise. simpl. by rewrite app_nil_r. Qed.

Lemma framed_lift {A} (o : outcome A) : framed (lift o).
Proof. intros t. unfold lift. simpl. by rewrite app_nil_r. Qed.

Lemma framed_emit e : framed (emit e).
Proof. by intros t. Qed.

Lemma framed_bind {A B} (c : M A) (k : A → M B) :
  framed c → (∀ a, framed (k a)) → framed (bind c k).
Proof.
  intros Hc Hk t. unfold bind. rewrite (Hc t).
  destruct (c []) as [[a|e] e1]; simpl; [|done].
  rewrite (Hk a (t ++ e1)), (Hk a e1). simpl. by rewrite app_assoc.
Qed.

Lemma framed_for_each {A} (xs : list A) (body : A → M unit) :
  (∀ x, framed (body x)) → framed (for_each xs body).
Proof.
  intros Hb. induction xs as [|x xs IH]; simpl; [apply framed_ret|].
  apply framed_bind; [apply Hb|by intros _].
Qed.

Lemma framed_fold_each {A S} (body : S → A → M S) (xs : list A) :
  (∀ acc x, framed (body acc x)) → ∀ acc, framed (fold_each body xs acc).
Proof.
  intros Hb. induction xs as [|x xs IH]; intros acc; simpl; [apply framed_ret|].
  apply framed_bind; [apply Hb|apply IH].
Qed.

Lemma framed_log_verbose cfg m : framed (log_verbose cfg m).
Proof.
  unfold log_verbose.
  destruct (negb (VERBOSE_LOGGING cfg)); [apply framed_ret|apply framed_emit].
Qed.
End Framed.

Ltac framed_step :=
  first
    [ apply framed_ret | apply framed_raise | apply framed_lift
    | apply framed_log_verbose
    | apply framed_emit
    | apply framed_bind; [|intros]
    | apply framed_for_each; intros
    | apply framed_fold_each; intros
    | match goal with
      | |- framed (if ?b then _ else _) => destruct b
      | |- framed (match ?x with _ => _ end) => destruct x
      | |- framed (let '(_, _) := ?x in _) => destruct x
      end ].

Section FramedPlugin.
Context (cfg : config).

Lemma parse_info_framed lines : framed (parse_info cfg lines).
Proof.
  unfold parse_info, derive_delays, parse_line, add_delay.
  repeat framed_step.
Qed.

Lemma fetch_info_framed p : framed (fetch_info cfg p).
Proof.
  unfold fetch_info.
  repeat first [apply parse_info_framed | framed_step].
Qed.
End FramedPlugin.

(** A reading that occurs after events which are no readings occurs after
    all of them. *)
Lemma split_after_quiet quiet rest before v after :
  Forall no_dispatch quiet →
  quiet ++ rest = before ++ dispatch v :: after →
  ∃ mid, before = quiet ++ mid.
Proof.
  intros Hq. revert before. induction Hq as [|e quiet He _ IH]; intros before.
  { intros _. by exists before. }
  destruct before as [|b before]; simpl.
  - intros [= -> _]. done.
  - intros [= <- H]. destruct (IH _ H) as [mid ->]. by exists mid.
Qed.

(** ** The read callback *)

Section ReadCallback.
Context (cfg : config).
Implicit Types (info : gmap string pyval) (t : list event).

Lemma emits_dispatched {A} (c : M A) t r t' :
  emits no_dispatch c → c t = (r, t') → dispatched t' = dispatched t.
Proof.
  intros Hc H. destruct (Hc _ _ _ H) as (ext & -> & F).
  by rewrite dispatched_app, (dispatched_quiet ext), app_nil_r.
Qed.

(** The two ways in which [fetch_info] returns [None]. *)
Lemma fetch_info_None p t :
  accepts p = false
  ∨ (truthy (REDIS_PASS cfg) = true ∧ startswith "+OK" (readline (sends p)).1 = false) →
  (fetch_info cfg p t).1 = Return None.
Proof.
  intros [Ha|[Hp Hok]]; unfold fetch_info.
  { by rewrite Ha. }
  destruct (accepts p); [|done]. rewrite Hp. simpl.
  unfold bind at 1. simpl. unfold bind at 1.
  destruct (log_verbose_sent cfg
    (Fmt "Connected to Redis at %s:%s" [PStr (REDIS_HOST cfg); PInt (REDIS_PORT cfg)])
    (t ++ [sock_connect (REDIS_HOST cfg) (REDIS_PORT cfg)])) as (t1 & -> & _).
  unfold bind at 1. unfold bind at 1. simpl.
  destruct (readline (sends p)) as [response fp]. simpl in Hok.
  by rewrite Hok.
Qed.

(** A mapping that [fetch_info] returns came out of [parse_info]. *)
Lemma fetch_info_Some p info t t' :
  fetch_info cfg p t = (Return (Some info), t') →
  ∃ lines t0 t0', parse_info cfg lines t0 = (Return info, t0').
Proof.
  unfold fetch_info. destruct (accepts p); simpl; [|by intros [= <-]].
  unfold bind at 1. simpl. unfold bind at 1.
  destruct (log_verbose_run cfg
    (Fmt "Connected to Redis at %s:%s" [PStr (REDIS_HOST cfg); PInt (REDIS_PORT cfg)])
    (t ++ [sock_connect (REDIS_HOST cfg) (REDIS_PORT cfg)])) as (t1 & -> & _ & _).
  unfold bind at 1.
  match goal with |- context [(if ?b then ?x else ?y) t1] =>
    destruct ((if b then x else y) t1) as [[[fp|]|e] t2] end; [|done..].
  unfold bind at 1.
  destruct (log_verbose_run cfg (Fmt "Sending info command" []) t2) as (t3 & -> & _ & _).
  unfold bind at 1. simpl.
  destruct (readline fp) as [status_line fp'].
  unfold bind at 1, lift.
  destruct (int_of_str (slice_1_m1 status_line)) as [n|]; [|done].
  unfold bind at 1.
  destruct (log_verbose_run cfg (Fmt "Received data: %s" [PStr (read fp' n)])
              (t3 ++ [sock_sendall ("info" +:+ CRLF)])) as (t4 & -> & _ & _).
  unfold bind at 1. simpl. unfold bind at 1.
  destruct (parse_info cfg (split LF (read fp' n)) (t4 ++ [sock_close]))
    as [[info1|e] t5] eqn:Hp; [|done].
  intros [= <- <-]. eauto.
Qed.
End ReadCallback.

(** X8. When the connection fails, or the server does not answer [auth]
    with [+OK], [read_callback] dispatches no reading, logs that no info
    was received and returns without raising. *)
Theorem read_callback_without_report cfg p t :
  accepts p = false
  ∨ (truthy (REDIS_PASS cfg) = true ∧ startswith "+OK" (readline (sends p)).1 = false) →
  ∃ t0, read_callback cfg p t
        = (Return tt, t0 ++ [collectd_error (Fmt "redis plugin: No info received" [])])
        ∧ dispatched t0 = dispatched t.
Proof.
  intros Hfail. unfold read_callback, bind.
  destruct (log_verbose_run cfg (Fmt "Read callback called" []) t) as (t1 & -> & Ht1 & _).
  pose proof (fetch_info_None cfg p t1 Hfail) as Hnone.
  destruct (fetch_info cfg p t1) as [r t2] eqn:Hf. simpl in Hnone. subst r.
  exists t2. split; [done|].
  rewrite <- Ht1. by apply (emits_dispatched _ _ _ _ (fetch_info_emits cfg p) Hf).
Qed.

Lemma read_callback_without_report_witness :
  ∃ t0, read_callback password_config denying_peer []
        = (Return tt, t0 ++ [collectd_error (Fmt "redis plugin: No info received" [])])
        ∧ dispatched t0 = dispatched [].
Proof.
  apply (read_callback_without_report password_config denying_peer []).
  right. split; reflexivity.
Defined.

(** On the answering server the callback connects, asks, closes, and only
    then dispatches. *)
Lemma read_callback_closes_then_dispatches :
  ∃ rest,
    run (read_callback default_config answering_peer)
    = (Return tt,
       [sock_connect "localhost" 6379; sock_sendall ("info" +:+ CRLF); sock_close]
       ++ rest)
    ∧ dispatched rest = [reading "gauge" "role" 1].
Proof.
  exists (drop 3 (run (read_callback default_config answering_peer)).2).
  split; by vm_compute.
Qed.

(** X9. [read_callback] dispatches readings only once it has closed the
    socket: in what a call appends to the trace, every reading comes after
    a close that the same call appended. *)
Theorem read_callback_dispatches_after_close cfg p t :
  ∃ ext, (read_callback cfg p t).2 = t ++ ext
         ∧ ∀ before v after,
             ext = before ++ dispatch v :: after → closed before = true.
Proof.
  unfold read_callback, bind.
  destruct (log_verbose cfg (Fmt "Read callback called" []) t) as [r1 t1] eqn:H1.
  destruct (emits_log_verbose no_dispatch cfg _ (λ _, I) _ _ _ H1) as (e1 & -> & F1).
  destruct (log_verbose_run cfg (Fmt "Read callback called" []) t) as (t1 & H1' & _).
  rewrite H1 in H1'. injection H1' as -> _. clear H1.
  rewrite (fetch_info_framed cfg p (t ++ e1)).
  destruct (fetch_info cfg p []) as [r2 e2] eqn:H2. simpl.
  destruct (fetch_info_emits cfg p _ _ _ H2) as (e2' & He2 & F2).
  simpl in He2. subst e2'.
  assert (∀ e3, Forall no_dispatch e3 →
            ∀ before v after, e1 ++ e2 ++ e3 = before ++ dispatch v :: after →
            closed before = true) as Hquiet.
  { intros e3 F3 before v after Heq.
    assert (Forall no_dispatch (e1 ++ e2 ++ e3)) as F by by repeat apply Forall_app_2.
    rewrite Heq in F. apply Forall_app in F as [_ F]. by inversion F. }
  destruct r2 as [[info|]|e].
  - apply fetch_info_report_closed in H2.
    destruct (decide (size info = 0%nat)); simpl.
    + exists (e1 ++ e2 ++ [collectd_error (Fmt "redis plugin: No info received" [])]).
      split; [by rewrite <- !app_assoc|]. apply Hquiet. by repeat constructor.
    + destruct (send_all cfg info ((t ++ e1) ++ e2)) as [r3 t3] eqn:H3. simpl.
      destruct (send_all_emits cfg info _ _ _ H3) as (e3 & -> & _).
      exists (e1 ++ e2 ++ e3). split; [by rewrite <- !app_assoc|].
      intros before v after Heq. rewrite app_assoc in Heq.
      apply split_after_quiet in Heq as [mid ->]; [|by apply Forall_app_2].
      rewrite !closed_app. simpl in H2. rewrite H2. by rewrite orb_true_r.
  - simpl.
    exists (e1 ++ e2 ++ [collectd_error (Fmt "redis plugin: No info received" [])]).
    split; [by rewrite <- !app_assoc|]. apply Hquiet. by repeat constructor.
  - simpl. exists (e1 ++ e2 ++ []). split; [by rewrite app_nil_r, <- app_assoc|].
    by apply Hquiet.
Qed.

(** X10. The test [if not info] of line 159 only ever catches [None]: a
    mapping that [fetch_info] returns is never empty, so every report, even
    one without a line, is projected. *)
Theorem read_callback_projects_every_report cfg p t :
  read_callback cfg p t
  = (log_verbose cfg (Fmt "Read callback called" []);;
     let* info := fetch_info cfg p in
     match info with
     | None => emit (collectd_error (Fmt "redis plugin: No info received" []))
     | Some info => send_all cfg info
     end) t.
Proof.
  unfold read_callback, bind.
  destruct (log_verbose cfg (Fmt "Read callback called" []) t) as [[[]|e] t1]; [|done].
  destruct (fetch_info cfg p t1) as [[[info|]|e] t2] eqn:Hf; try done.
  destruct (fetch_info_Some cfg p info t1 t2 Hf) as (lines & t0 & t0' & Hp).
  apply parse_info_has_changes, size_of_key in Hp.
  by rewrite decide_False.
Qed.

(** ** More on the projection *)

Section MoreProjection.
Context (cfg : config).
Implicit Types (info d : gmap string pyval) (t : list event).

Lemma dispatch_int_step info key ty ti variants t :
  given variants = None →
  (∀ v, info !! key = Some v → ∃ n, py_int v = Return n) →
  ∃ t', dispatch_value cfg (PDict info) key ty ti variants t = (Return tt, t')
        ∧ dispatched t' = dispatched t ++ int_reading info key ty (or_key ti key).
Proof.
  intros Hv Hint. unfold int_reading. destruct (info !! key) as [v|] eqn:Hk.
  - destruct (Hint v eq_refl) as [n Hn]. rewrite Hn.
    by apply (dispatch_value_int cfg info key ty ti variants v n t).
  - rewrite dispatch_value_missing by done. eexists. split; [done|].
    rewrite dispatched_app. simpl. done.
Qed.

Lemma dispatch_variant_step info key ty ti variants table t :
  given variants = Some table →
  (∀ v, info !! key = Some v → ∃ s, v = PStr s) →
  ∃ t', dispatch_value cfg (PDict info) key ty ti variants t = (Return tt, t')
        ∧ dispatched t' = dispatched t ++ variant_reading info key ty (or_key ti key) table.
Proof.
  intros Hv Hstr. unfold variant_reading. destruct (info !! key) as [v|] eqn:Hk.
  - destruct (Hstr v eq_refl) as [s ->].
    by apply (dispatch_value_variant cfg info key ty ti variants table s t).
  - rewrite dispatch_value_missing by done. eexists. split; [done|].
    rewrite dispatched_app. simpl. done.
Qed.

Lemma send_if_present_int info key t :
  (∀ v, info !! key = Some v → ∃ n, py_int v = Return n) →
  ∃ t', send_if_present cfg info key None t = (Return tt, t')
        ∧ dispatched t' = dispatched t ++ int_reading info key "gauge" key
        ∧ (info !! key = None → t' = t).
Proof.
  intros Hint. unfold send_if_present.
  destruct (info !! key) as [v|] eqn:Hk.
  - rewrite bool_decide_eq_true_2 by eauto.
    destruct (dispatch_int_step info key "gauge" None None t eq_refl) as (t' & -> & Hd).
    { by rewrite Hk. }
    exists t'. split; [done|]. split; [|done]. rewrite Hd. unfold int_reading. by rewrite Hk.
  - rewrite bool_decide_eq_false_2 by (by intros [? ?]).
    exists t. split; [done|]. split; [|done]. unfold int_reading. rewrite Hk.
    by rewrite app_nil_r.
Qed.

Lemma send_if_present_variant info key table t :
  size table ≠ 0%nat →
  (∀ v, info !! key = Some v → ∃ s, v = PStr s) →
  ∃ t', send_if_present cfg info key (Some table) t = (Return tt, t')
        ∧ dispatched t' = dispatched t ++ variant_reading info key "gauge" key table
        ∧ (info !! key = None → t' = t).
Proof.
  intros Hsize Hstr. unfold send_if_present.
  destruct (info !! key) as [v|] eqn:Hk.
  - rewrite bool_decide_eq_true_2 by eauto.
    destruct (dispatch_variant_step info key "gauge" None (Some table) table t)
      as (t' & -> & Hd).
    { unfold given. by rewrite decide_False. }
    { by rewrite Hk. }
    exists t'. split; [done|]. split; [|done]. rewrite Hd. unfold variant_reading.
    by rewrite Hk.
  - rewrite bool_decide_eq_false_2 by (by intros [? ?]).
    exists t. split; [done|]. split; [|done]. unfold variant_reading. rewrite Hk.
    by rewrite app_nil_r.
Qed.

End MoreProjection.

(** One step of the high-level part: the next [dispatch_value], through
    [int] or through the table. *)
Ltac high_level_step cfg Hint :=
  unfold bind at 1;
  match goal with
  | |- context [dispatch_value cfg (PDict ?i) ?k ?ty ?ti None ?t] =>
      let t' := fresh "t" in
      let Hd := fresh "Hd" in
      destruct (dispatch_int_step cfg i k ty ti None t eq_refl) as (t' & -> & Hd);
      [intros ? ?; eapply Hint; [|eassumption]; simpl; tauto|]
  end.

(** X11. The high-level part of [read_callback], on a mapping whose
    high-level fields are integers (and whose role is a string): it returns
    without raising and dispatches, in this order and under these types and
    names, one reading for each field that is there, none for one that is
    missing. *)
Theorem send_high_level_readings cfg (info : gmap string pyval) t :
  (∀ key v,
     In key ["uptime_in_seconds"; "connected_clients"; "connected_slaves";
             "blocked_clients"; "used_memory"; "rdb_changes_since_last_save";
             "total_connections_received"; "total_commands_processed";
             "keyspace_hits"; "keyspace_misses"; "rdb_bgsave_in_progress"] →
     info !! key = Some v → ∃ n, py_int v = Return n) →
  (∀ v, info !! "role" = Some v → ∃ s, v = PStr s) →
  ∃ t', send_high_level cfg info t = (Return tt, t')
    ∧ dispatched t'
      = dispatched t
        ++ int_reading info "uptime_in_seconds" "uptime" "uptime"
        ++ int_reading info "connected_clients" "gauge" "connected_clients"
        ++ int_reading info "connected_slaves" "gauge" "connected_slaves"
        ++ int_reading info "blocked_clients" "gauge" "blocked_clients"
        ++ int_reading info "used_memory" "bytes" "used_memory"
        ++ int_reading info "rdb_changes_since_last_save" "gauge"
                       "rdb_changes_since_last_save"
        ++ int_reading info "total_connections_received" "counter"
                       "connections_recieved"
        ++ int_reading info "total_commands_processed" "counter" "commands_processed"
        ++ int_reading info "keyspace_hits" "counter" "hits"
        ++ int_reading info "keyspace_misses" "counter" "misses"
        ++ variant_reading info "role" "gauge" "role" role_variants
        ++ int_reading info "rdb_bgsave_in_progress" "gauge"
                       "background_save_in_progress".
Proof.
  intros Hint Hrole. unfold send_high_level.
  do 10 high_level_step cfg Hint.
  unfold bind at 1.
  destruct (dispatch_variant_step cfg info "role" "gauge" None (Some role_variants)
              role_variants t9 eq_refl Hrole) as (t10 & -> & Hd10).
  destruct (dispatch_int_step cfg info "rdb_bgsave_in_progress" "gauge"
              (Some "background_save_in_progress") None t10 eq_refl)
    as (t11 & -> & Hd11).
  { intros v Hv. eapply Hint; [|eassumption]. simpl. tauto. }
  exists t11. split; [done|].
  rewrite Hd11, Hd10, Hd8, Hd7, Hd6, Hd5, Hd4, Hd3, Hd2, Hd1, Hd0, Hd.
  by rewrite <- !app_assoc.
Qed.

Lemma send_high_level_readings_witness :
  ∃ t', send_high_level default_config master_info [] = (Return tt, t')
    ∧ dispatched t'
      = dispatched []
        ++ int_reading master_info "uptime_in_seconds" "uptime" "uptime"
        ++ int_reading master_info "connected_clients" "gauge" "connected_clients"
        ++ int_reading master_info "connected_slaves" "gauge" "connected_slaves"
        ++ int_reading master_info "blocked_clients" "gauge" "blocked_clients"
        ++ int_reading master_info "used_memory" "bytes" "used_memory"
        ++ int_reading master_info "rdb_changes_since_last_save" "gauge"
                       "rdb_changes_since_last_save"
        ++ int_reading master_info "total_connections_received" "counter"
                       "connections_recieved"
        ++ int_reading master_info "total_commands_processed" "counter"
                       "commands_processed"
        ++ int_reading master_info "keyspace_hits" "counter" "hits"
        ++ int_reading master_info "keyspace_misses" "counter" "misses"
        ++ variant_reading master_info "role" "gauge" "role" role_variants
        ++ int_reading master_info "rdb_bgsave_in_progress" "gauge"
                       "background_save_in_progress".
Proof.
  apply (send_high_level_readings default_config master_info []).
  - intros key v Hin Hv. simpl in Hin.
    repeat (destruct Hin as [<-|Hin]; [vm_compute in Hv; injection Hv as <- || discriminate Hv|]);
      [..|done]; by eexists.
  - intros v Hv. vm_compute in Hv. injection Hv as <-. by eexists.
Defined.

(** X12. The replication part of [read_callback], on a mapping whose
    replication fields are integers (and whose link status is a string):
    it returns without raising and dispatches one gauge for each field that
    is there; for a field that is missing it does nothing at all, not even
    log a warning. *)
Theorem send_replication_readings cfg (info : gmap string pyval) t :
  (∀ key v,
     In key ["master_repl_offset"; "master_last_io_seconds_ago";
             "slave_repl_offset"; "master_sync_in_progress"] →
     info !! key = Some v → ∃ n, py_int v = Return n) →
  (∀ v, info !! "master_link_status" = Some v → ∃ s, v = PStr s) →
  ∃ t', send_replication cfg info t = (Return tt, t')
    ∧ dispatched t'
      = dispatched t
        ++ int_reading info "master_repl_offset" "gauge" "master_repl_offset"
        ++ int_reading info "master_last_io_seconds_ago" "gauge"
                       "master_last_io_seconds_ago"
        ++ int_reading info "slave_repl_offset" "gauge" "slave_repl_offset"
        ++ variant_reading info "master_link_status" "gauge" "master_link_status"
                           link_variants
        ++ int_reading info "master_sync_in_progress" "gauge"
                       "master_sync_in_progress"
    ∧ (info !! "master_repl_offset" = None →
       info !! "master_last_io_seconds_ago" = None →
       info !! "slave_repl_offset" = None →
       info !! "master_link_status" = None →
       info !! "master_sync_in_progress" = None → t' = t).
Proof.
  intros Hint Hlink. unfold send_replication.
  unfold bind at 1.
  destruct (send_if_present_int cfg info "master_repl_offset" t)
    as (t1 & -> & Hd1 & Hn1).
  { intros v Hv. eapply Hint; [|eassumption]. simpl. tauto. }
  unfold bind at 1.
  destruct (send_if_present_int cfg info "master_last_io_seconds_ago" t1)
    as (t2 & -> & Hd2 & Hn2).
  { intros v Hv. eapply Hint; [|eassumption]. simpl. tauto. }
  unfold bind at 1.
  destruct (send_if_present_int cfg info "slave_repl_offset" t2)
    as (t3 & -> & Hd3 & Hn3).
  { intros v Hv. eapply Hint; [|eassumption]. simpl. tauto. }
  unfold bind at 1.
  destruct (send_if_present_variant cfg info "master_link_status" link_variants t3)
    as (t4 & -> & Hd4 & Hn4); [by vm_compute|done|].
  destruct (send_if_present_int cfg info "master_sync_in_progress" t4)
    as (t5 & -> & Hd5 & Hn5).
  { intros v Hv. eapply Hint; [|eassumption]. simpl. tauto. }
  exists t5. split; [done|]. split.
  - rewrite Hd5, Hd4, Hd3, Hd2, Hd1. by rewrite <- !app_assoc.
  - intros H1 H2 H3 H4 H5.
    rewrite (Hn5 H5), (Hn4 H4), (Hn3 H3), (Hn2 H2). by apply Hn1.
Qed.

Lemma send_replication_readings_witness :
  ∃ t', send_replication default_config master_info [] = (Return tt, t')
    ∧ dispatched t'
      = dispatched []
        ++ int_reading master_info "master_repl_offset" "gauge" "master_repl_offset"
        ++ int_reading master_info "master_last_io_seconds_ago" "gauge"
                       "master_last_io_seconds_ago"
        ++ int_reading master_info "slave_repl_offset" "gauge" "slave_repl_offset"
        ++ variant_reading master_info "master_link_status" "gauge"
                           "master_link_status" link_variants
        ++ int_reading master_info "master_sync_in_progress" "gauge"
                       "master_sync_in_progress"
    ∧ (master_info !! "master_repl_offset" = None →
       master_info !! "master_last_io_seconds_ago" = None →
       master_info !! "slave_repl_offset" = None →
       master_info !! "master_link_status" = None →
       master_info !! "master_sync_in_progress" = None → t' = []).
Proof.
  apply (send_replication_readings default_config master_info []).
  - intros key v Hin Hv. simpl in Hin.
    repeat (destruct Hin as [<-|Hin]; [vm_compute in Hv; injection Hv as <- || discriminate Hv|]);
      [..|done]; by eexists.
  - intros v Hv. vm_compute in Hv. discriminate Hv.
Defined.

(** X13. Line 202 asks for the prefix [slave] and for a dictionary.  A key
    without the prefix, or an entry that is no dictionary (the integer
    [slaves_max_delay], the string [slave_repl_offset]), gives nothing;
    a dictionary under the prefix gives the gauge [<key>-delay] when its
    [delay] is an integer, and a warning when it has none. *)
Theorem slave_delay_by_prefix_and_type cfg (info : gmap string pyval) key t :
  (startswith "slave" key = false → send_slave_delay cfg info key t = (Return tt, t))
  ∧ (∀ v, info !! key = Some v → is_dict v = false →
          send_slave_delay cfg info key t = (Return tt, t))
  ∧ (startswith "slave" key = true →
     ∀ d v n, info !! key = Some (PDict d) → d !! "delay" = Some v →
              py_int v = Return n →
       ∃ t', send_slave_delay cfg info key t = (Return tt, t')
             ∧ dispatched t' = dispatched t ++ [reading "gauge" (key +:+ "-delay") n])
  ∧ (startswith "slave" key = true →
     ∀ d, info !! key = Some (PDict d) → d !! "delay" = None →
       send_slave_delay cfg info key t
       = (Return tt,
          t ++ [collectd_warning
                  (Fmt "redis_info plugin: Info key not found: %s" [PStr "delay"])])).
Proof.
  split; [|split; [|split]].
  - intros H. unfold send_slave_delay. by rewrite H.
  - intros v Hk Hd. unfold send_slave_delay, bind, lift.
    destruct (startswith "slave" key); [|done]. simpl. by rewrite Hk, Hd.
  - intros H d v n Hk Hd Hn. unfold send_slave_delay, bind, lift. rewrite H. simpl.
    rewrite Hk. simpl.
    destruct (dispatch_value_int cfg d "delay" "gauge" (Some (key +:+ "-delay")) None v n t)
      as (t' & Hrun & Ht'); [done..|].
    exists t'. split; [done|]. rewrite Ht'. by destruct key.
  - intros H d Hk Hd. unfold send_slave_delay, bind, lift. rewrite H. simpl.
    rewrite Hk. simpl. by apply dispatch_value_missing.
Qed.

(** X14. Line 201 hands [info[key]] to [dispatch_value] whatever it is.
    Under a key that starts with [db], a string entry is searched for the
    text [keys]: when it holds it, indexing the string raises [TypeError];
    when it does not, a warning is logged and nothing dispatched.  The
    line [db0:keys=5], whose value has no comma, is of the first kind. *)
Theorem db_keys_on_string_entry cfg (info : gmap string pyval) key s t :
  startswith "db" key = true → info !! key = Some (PStr s) →
  send_db_keys cfg info key t
  = if contains "keys" s then (Raise TypeError, t)
    else (Return tt,
          t ++ [collectd_warning
                  (Fmt "redis_info plugin: Info key not found: %s" [PStr "keys"])]).
Proof.
  intros H Hk. unfold send_db_keys, bind, lift. rewrite H. simpl. rewrite Hk.
  unfold dispatch_value, bind, lift. simpl.
  destruct (contains "keys" s); simpl; [|done].
  by destruct (given None).
Qed.

Lemma db_keys_on_string_entry_witness :
  send_db_keys default_config single_field_db "db0" []
  = if contains "keys" "keys=5" then (Raise TypeError, [])
    else (Return tt,
          [] ++ [collectd_warning
                   (Fmt "redis_info plugin: Info key not found: %s" [PStr "keys"])]).
Proof.
  apply (db_keys_on_string_entry default_config single_field_db "db0" "keys=5" []).
  - reflexivity.
  - reflexivity.
Defined.

Section Wildcards.
Context (cfg : config).
Implicit Types (info : gmap string pyval) (t : list event).

Lemma wildcards_skip info keys t :
  Forall (λ k, startswith "repl_" k = false ∧ startswith "vm_stats_" k = false
               ∧ startswith "db" k = false ∧ startswith "slave" k = false) keys →
  for_each keys (λ key,
    send_repl cfg info key;; send_vm_stats cfg info key;;
    send_db_keys cfg info key;; send_slave_delay cfg info key) t
  = (Return tt, t).
Proof.
  induction 1 as [|k keys (H1 & H2 & H3 & H4) _ IH]; [done|].
  simpl. unfold bind, send_repl, send_vm_stats, send_db_keys, send_slave_delay.
  rewrite H1, H2, H3, H4. simpl. apply IH.
Qed.
End Wildcards.

(** X15. The loop over the keys looks at four prefixes only: on a mapping
    none of whose keys starts with [repl_], [vm_stats_], [db] or [slave],
    it dispatches nothing, logs nothing and returns. *)
Theorem send_wildcards_other_keys cfg (info : gmap string pyval) t :
  (∀ k, is_Some (info !! k) →
        startswith "repl_" k = false ∧ startswith "vm_stats_" k = false
        ∧ startswith "db" k = false ∧ startswith "slave" k = false) →
  send_wildcards cfg info t = (Return tt, t).
Proof.
  intros H. unfold send_wildcards. apply wildcards_skip.
  apply Forall_forall. intros k Hk. apply H. by apply elem_of_keys.
Qed.

Lemma send_wildcards_other_keys_witness :
  send_wildcards default_config master_info [] = (Return tt, []).
Proof.
  apply (send_wildcards_other_keys default_config master_info []).
  intros k Hk. apply elem_of_keys in Hk.
  vm_compute in Hk.
  repeat (apply elem_of_cons in Hk as [->|Hk]; [by vm_compute|]).
  by apply elem_of_nil in Hk.
Defined.

(** X16. For a key that starts with [repl_] or [vm_stats_] and is bound to
    an integer, the four tests of the loop dispatch one reading in all:
    the gauge named after the key. *)
Theorem wildcard_gauge_once cfg (info : gmap string pyval) key v n t :
  startswith "repl_" key = true ∨ startswith "vm_stats_" key = true →
  info !! key = Some v → py_int v = Return n →
  ∃ t', (send_repl cfg info key;; send_vm_stats cfg info key;;
         send_db_keys cfg info key;; send_slave_delay cfg info key) t
        = (Return tt, t')
        ∧ dispatched t' = dispatched t ++ [reading "gauge" key n].
Proof.
  intros Hpre Hk Hn.
  destruct (dispatch_value_int cfg info key "gauge" None None v n t)
    as (t' & Hrun & Ht'); [done..|].
  exists t'. split; [|done].
  unfold bind, send_repl, send_vm_stats, send_db_keys, send_slave_delay.
  destruct Hpre as [H|H].
  - rewrite H.
    rewrite (startswith_other_head "r" "v" "epl_" "m_stats_" key) by done.
    rewrite (startswith_other_head "r" "d" "epl_" "b" key) by done.
    rewrite (startswith_other_head "r" "s" "epl_" "lave" key) by done.
    cbv beta iota. by rewrite Hrun.
  - rewrite (startswith_other_head "v" "r" "m_stats_" "epl_" key) by done.
    rewrite H.
    rewrite (startswith_other_head "v" "d" "m_stats_" "b" key) by done.
    rewrite (startswith_other_head "v" "s" "m_stats_" "lave" key) by done.
    cbv beta iota. unfold ret at 1. by rewrite Hrun.
Qed.

Lemma wildcard_gauge_once_witness :
  ∃ t', (send_repl default_config backlog_info "repl_backlog_size";;
         send_vm_stats default_config backlog_info "repl_backlog_size";;
         send_db_keys default_config backlog_info "repl_backlog_size";;
         send_slave_delay default_config backlog_info "repl_backlog_size") []
        = (Return tt, t')
        ∧ dispatched t' = dispatched [] ++ [reading "gauge" "repl_backlog_size" 1048576].
Proof.
  apply (wildcard_gauge_once default_config backlog_info "repl_backlog_size"
           (PStr "1048576") 1048576 []).
  - left. reflexivity.
  - reflexivity.
  - reflexivity.
Defined.

(** ** configure_callback *)

Section Configure.

Lemma configure_node_unknown cfg n t :
  known_key (node_key n) = false →
  configure_node cfg n t = (Return cfg, t ++ [unknown_key_warning (node_key n)]).
Proof.
  unfold known_key, configure_node. intros H.
  repeat (apply orb_false_iff in H as [H ?]).
  rewrite bool_decide_eq_false in *.
  by repeat case_decide.
Qed.

Lemma configure_children_app cfg c1 c2 t cfg1 t1 :
  configure_children cfg c1 t = ((Return tt, cfg1), t1) →
  configure_children cfg (c1 ++ c2) t = configure_children cfg1 c2 t1.
Proof.
  revert cfg t. induction c1 as [|n c1 IH]; intros cfg t; simpl.
  - by intros [= -> ->].
  - destruct (configure_node cfg n t) as [[cfg'|e] t']; [apply IH|done].
Qed.

(** A child changes the global of its own key only. *)
Lemma configure_node_frame cfg n t cfg' t' :
  configure_node cfg n t = (Return cfg', t') →
  (node_key n ≠ "Host" → REDIS_HOST cfg' = REDIS_HOST cfg)
  ∧ (node_key n ≠ "Port" → REDIS_PORT cfg' = REDIS_PORT cfg)
  ∧ (node_key n ≠ "Password" → REDIS_PASS cfg' = REDIS_PASS cfg)
  ∧ (node_key n ≠ "Verbose" → VERBOSE_LOGGING cfg' = VERBOSE_LOGGING cfg).
Proof.
  unfold configure_node, bind, lift, ret, raise, emit.
  repeat case_decide.
  - destruct (node_value n); intros [= <- <-]; repeat split; done.
  - destruct (conf_int (node_value n)); intros [= <- <-]; repeat split; done.
  - destruct (node_value n); intros [= <- <-]; repeat split; done.
  - intros [= <- <-]; repeat split; done.
  - intros [= <- <-]; repeat split; done.
Qed.

Lemma names_cons key n conf :
  names key (n :: conf) = false → node_key n ≠ key ∧ names key conf = false.
Proof.
  unfold names; simpl. intros [H ?]%orb_false_iff.
  by apply bool_decide_eq_false in H.
Qed.

Lemma configure_children_frame cfg conf t :
  (names "Host" conf = false →
   REDIS_HOST (configure_children cfg conf t).1.2 = REDIS_HOST cfg)
  ∧ (names "Port" conf = false →
     REDIS_PORT (configure_children cfg conf t).1.2 = REDIS_PORT cfg)
  ∧ (names "Password" conf = false →
     REDIS_PASS (configure_children cfg conf t).1.2 = REDIS_PASS cfg)
  ∧ (names "Verbose" conf = false →
     VERBOSE_LOGGING (configure_children cfg conf t).1.2 = VERBOSE_LOGGING cfg).
Proof.
  revert cfg t. induction conf as [|n conf IH]; intros cfg t; simpl; [done|].
  destruct (configure_node cfg n t) as [[cfg'|e] t'] eqn:Hn; [|done].
  destruct (configure_node_frame _ _ _ _ _ Hn) as (Hh & Hp & Hw & Hv).
  destruct (IH cfg' t') as (IHh & IHp & IHw & IHv).
  repeat split; intros [? ?]%names_cons.
  - by rewrite IHh, Hh.
  - by rewrite IHp, Hp.
  - by rewrite IHw, Hw.
  - by rewrite IHv, Hv.
Qed.

End Configure.

(** X17, [configure_callback], lines 114-126: a block whose children all
    have keys other than Host, Port, Password and Verbose changes no
    global; every child gives one warning that names its key, in the
    order of the block, and the closing line is logged when verbose
    logging was on before. *)
Theorem configure_unknown_keys_only_warn cfg conf t :
  forallb (λ n, negb (known_key (node_key n))) conf = true →
  configure_callback cfg conf t
  = ((Return tt, cfg),
     (t ++ ((λ n, unknown_key_warning (node_key n)) <$> conf))
     ++ (if VERBOSE_LOGGING cfg then [configured_line cfg] else [])).
Proof.
  intros Hall.
  assert (configure_children cfg conf t
          = ((Return tt, cfg), t ++ ((λ n, unknown_key_warning (node_key n)) <$> conf)))
    as Hrun.
  { revert t. induction conf as [|n conf IH]; intros t; simpl.
    - by rewrite app_nil_r.
    - simpl in Hall. apply andb_true_iff in Hall as [Hn Hall].
      apply negb_true_iff in Hn.
      rewrite configure_node_unknown by done.
      rewrite IH by done. by rewrite <- app_assoc. }
  unfold configure_callback. rewrite Hrun.
  unfold log_verbose, configured_line.
  destruct (VERBOSE_LOGGING cfg); simpl; [done|].
  by rewrite app_nil_r.
Qed.

Lemma configure_unknown_keys_only_warn_witness :
  configure_callback default_config [mkNode "Pass" (CStr "secret") []] []
  = ((Return tt, default_config),
     ([] ++ ((λ n, unknown_key_warning (node_key n))
               <$> [mkNode "Pass" (CStr "secret") []]))
     ++ (if VERBOSE_LOGGING default_config
         then [configured_line default_config] else [])).
Proof.
  apply (configure_unknown_keys_only_warn default_config
           [mkNode "Pass" (CStr "secret") []] []).
  reflexivity.
Defined.

(** X18, [configure_callback], lines 114-125: the loop changes a global
    only at a child of that global's key.  A block with no Host child
    leaves REDIS_HOST as it was, and likewise Port, Password and Verbose,
    whether the loop ends or raises. *)
Theorem configure_keeps_unnamed_settings cfg conf t :
  (names "Host" conf = false →
   REDIS_HOST (configure_children cfg conf t).1.2 = REDIS_HOST cfg)
  ∧ (names "Port" conf = false →
     REDIS_PORT (configure_children cfg conf t).1.2 = REDIS_PORT cfg)
  ∧ (names "Password" conf = false →
     REDIS_PASS (configure_children cfg conf t).1.2 = REDIS_PASS cfg)
  ∧ (names "Verbose" conf = false →
     VERBOSE_LOGGING (configure_children cfg conf t).1.2 = VERBOSE_LOGGING cfg).
Proof. apply configure_children_frame. Qed.

(** X19, [configure_callback], lines 114-116: of several Host children the
    last one counts.  When the children before it are read without an
    exception and none after it has the key Host, REDIS_HOST ends as the
    string of that child, whatever the later children do. *)
Theorem configure_last_host_counts cfg c1 host more c2 t cfg1 t1 :
  configure_children cfg c1 t = ((Return tt, cfg1), t1) →
  names "Host" c2 = false →
  REDIS_HOST (configure_children cfg (c1 ++ mkNode "Host" (CStr host) more :: c2) t).1.2
  = host.
Proof.
  intros Hc1 Hc2.
  rewrite (configure_children_app _ _ _ _ _ _ Hc1). simpl.
  destruct (configure_children_frame (with_host cfg1 host) c2 t1) as (Hh & _).
  by rewrite Hh.
Qed.

Lemma configure_last_host_counts_witness :
  REDIS_HOST (configure_children default_config
                ([mkNode "Host" (CStr "a.local") []]
                 ++ mkNode "Host" (CStr "b.local") []
                 :: [mkNode "Port" (CStr "six") []]) []).1.2
  = "b.local".
Proof.
  apply (configure_last_host_counts default_config
           [mkNode "Host" (CStr "a.local") []] "b.local" []
           [mkNode "Port" (CStr "six") []] []
           (with_host default_config "a.local") []).
  - reflexivity.
  - reflexivity.
Defined.

(** X20, [configure_callback], lines 121-126 with [log_verbose], lines
    206-209: a Verbose child whose value is a string turns verbose logging
    on as soon as the string is not empty, whatever it says; as the last
    child it makes the closing line appear, with the host and the port set
    by the children before it. *)
Theorem configure_verbose_string_enables_log cfg conf s more t cfg1 t1 :
  configure_children cfg conf t = ((Return tt, cfg1), t1) →
  s ≠ EmptyString →
  configure_callback cfg (conf ++ [mkNode "Verbose" (CStr s) more]) t
  = ((Return tt, with_verbose cfg1 true), t1 ++ [configured_line cfg1]).
Proof.
  intros Hconf Hs. unfold configure_callback.
  rewrite (configure_children_app _ _ _ _ _ _ Hconf). simpl.
  unfold configure_node; simpl. unfold ret; simpl.
  by rewrite bool_decide_eq_false_2.
Qed.

Lemma configure_verbose_string_enables_log_witness :
  configure_callback default_config
    ([mkNode "Port" (CNum 6380 0) []] ++ [mkNode "Verbose" (CStr "false") []]) []
  = ((Return tt, with_verbose (with_port default_config 6380) true),
     [] ++ [configured_line (with_port default_config 6380)]).
Proof.
  apply (configure_verbose_string_enables_log default_config
           [mkNode "Port" (CNum 6380 0) []] "false" [] []
           (with_port default_config 6380) []).
  - reflexivity.
  - discriminate.
Defined.

(** X21, [configure_callback], lines 117-118: a Port child whose string is
    no integer raises ValueError out of [configure_callback].  The globals
    set by the children before it stay set, the children after it are not
    read, and the closing line is not logged. *)
Theorem configure_bad_port_aborts cfg c1 s more c2 t cfg1 t1 :
  configure_children cfg c1 t = ((Return tt, cfg1), t1) →
  int_of_str s = None →
  configure_callback cfg (c1 ++ mkNode "Port" (CStr s) more :: c2) t
  = ((Raise ValueError, cfg1), t1).
Proof.
  intros Hc1 Hs. unfold configure_callback.
  rewrite (configure_children_app _ _ _ _ _ _ Hc1). simpl.
  unfold configure_node; simpl. unfold bind, lift; simpl.
  by rewrite Hs.
Qed.

Lemma configure_bad_port_aborts_witness :
  configure_callback default_config
    ([mkNode "Host" (CStr "redis.local") []]
     ++ mkNode "Port" (CStr "six") [] :: [mkNode "Verbose" (CBool true) []]) []
  = ((Raise ValueError, with_host default_config "redis.local"), []).
Proof.
  apply (configure_bad_port_aborts default_config
           [mkNode "Host" (CStr "redis.local") []] "six" []
           [mkNode "Verbose" (CBool true) []] []
           (with_host default_config "redis.local") []).
  - reflexivity.
  - reflexivity.
Defined.
